(** * Indicator extraction of the log explainer agent

    A shallow embedding of [extract_indicators]
    (labs/lab4/app/log_explainer_agent/agent.py) and of the part of Python's
    [re] module it relies on: a backtracking matcher for the regular
    expression constructs that occur in the seven patterns of the function,
    [re.findall], [re.search], [sorted] and [set]. *)

From Stdlib Require Import String Ascii.
From Stdlib Require Import List NArith Arith Bool Lia.
From Stdlib Require Import Permutation Sorted.
Import ListNotations.

Set Implicit Arguments.

(** ** Characters and text

    A Python [str] is a sequence of Unicode code points.  A code point is a
    natural number; a text is a list of code points. *)

Definition char := N.
Definition text := list char.
Bind Scope N_scope with char.

Definition cp (a : ascii) : char := N_of_ascii a.
Definition str (s : string) : text := map N_of_ascii (list_ascii_of_string s).

(** The classification of the code points from 128 on comes from the Unicode
    database of the Python runtime, which is not part of the repository.  It
    is a parameter of the development; the ASCII range is written out. *)
Record UnicodeDB : Type := {
  (** category Nd, what [\d] matches *)
  uni_decimal : char -> bool;
  (** alphabetic or numeric, what [\w] matches besides Nd and [_] *)
  uni_alnum : char -> bool;
  (** what [\s] matches *)
  uni_space : char -> bool;
  (** [uni_icase a x]: under [re.IGNORECASE] the lowercase ASCII literal [a]
      matches the code point [x] *)
  uni_icase : char -> char -> bool;
  (** the value [int] gives a decimal digit *)
  uni_digit_value : char -> N
}.

Definition between (lo hi c : char) : bool := ((lo <=? c) && (c <=? hi))%N.

Definition ascii_digit (c : char) : bool := between 48 57 c.
Definition ascii_upper (c : char) : bool := between 65 90 c.
Definition ascii_lower (c : char) : bool := between 97 122 c.
Definition ascii_tolower (c : char) : char :=
  if ascii_upper c then (c + 32)%N else c.

(** ** Regular expressions *)

Inductive citem : Type :=
| CChar (c : char)          (* a character of a class: [-], [)] *)
| CRange (lo hi : char)     (* a range: [a-z] *)
| CDigit                    (* [\d] *)
| CSpace.                   (* [\s] *)

Inductive regex : Type :=
| Lit (c : char)                           (* a literal character *)
| LitI (c : char)                          (* a literal under re.IGNORECASE *)
| Cls (neg : bool) (items : list citem)    (* [...] and [^...], also \d *)
| Bnd                                      (* \b *)
| Cat (r1 r2 : regex)
| Alt (r1 r2 : regex)
| Rep (lo : nat) (hi : option nat) (r : regex)   (* greedy {lo,hi}, +, ? *)
| Grp (r : regex).                         (* the capturing group *)

Fixpoint has_group (r : regex) : bool :=
  match r with
  | Lit _ | LitI _ | Cls _ _ | Bnd => false
  | Cat r1 r2 | Alt r1 r2 => has_group r1 || has_group r2
  | Rep _ _ r' => has_group r'
  | Grp _ => true
  end.

(** The span of the capturing group, when it took part in the match. *)
Definition caps := option (nat * nat).
Definition result := option (nat * caps).
Definition cont := nat -> caps -> result.

Definition hi_allows (hi : option nat) : bool :=
  match hi with Some 0 => false | _ => true end.
Definition hi_pred (hi : option nat) : option nat := option_map pred hi.

(** A greedy repetition: one more iteration of the body is tried first, and
    only when that fails the rest of the pattern is tried after the
    iterations made so far.  An iteration has to consume a character, as
    the body of every repetition of the program does; [n] bounds the number
    of iterations by the characters that are left. *)
Fixpoint rep_loop (body : nat -> caps -> cont -> result) (k : cont)
    (n lo : nat) (hi : option nat) (i : nat) (c : caps) : result :=
  match n with
  | 0 => if lo =? 0 then k i c else None
  | S n' =>
      let more :=
        if hi_allows hi then
          body i c (fun j c' =>
            if i <? j then rep_loop body k n' (pred lo) (hi_pred hi) j c'
            else None)
        else None in
      match more with
      | Some res => Some res
      | None => if lo =? 0 then k i c else None
      end
  end.

Definition sub (s : text) (i j : nat) : text := firstn (j - i) (skipn i s).

Section Engine.

Variable db : UnicodeDB.

Definition is_digit (c : char) : bool :=
  if (c <? 128)%N then ascii_digit c else uni_decimal db c.

Definition is_word (c : char) : bool :=
  if (c <? 128)%N
  then ascii_digit c || ascii_upper c || ascii_lower c || (c =? 95)%N
  else uni_decimal db c || uni_alnum db c.

Definition is_space (c : char) : bool :=
  if (c <? 128)%N
  then between 9 13 c || between 28 31 c || (c =? 32)%N
  else uni_space db c.

(** [icase_eq a x]: the literal [a] (a lowercase ASCII letter in every
    pattern of the program) matches [x] when case is ignored. *)
Definition icase_eq (a x : char) : bool :=
  if (x <? 128)%N then (ascii_tolower x =? a)%N else uni_icase db a x.

Definition citem_match (it : citem) (c : char) : bool :=
  match it with
  | CChar a => (c =? a)%N
  | CRange lo hi => between lo hi c
  | CDigit => is_digit c
  | CSpace => is_space c
  end.

Definition cls_match (neg : bool) (items : list citem) (c : char) : bool :=
  xorb neg (existsb (fun it => citem_match it c) items).

Definition word_at (s : text) (i : nat) : bool :=
  match nth_error s i with Some c => is_word c | None => false end.

Definition word_before (s : text) (i : nat) : bool :=
  match i with 0 => false | S j => word_at s j end.

(** [\b]: exactly one of the characters before and at position [i] is a word
    character; beyond either end of the text there is none. *)
Definition at_boundary (s : text) (i : nat) : bool :=
  xorb (word_before s i) (word_at s i).

Definition step (p : char -> bool) (s : text) (i : nat) (c : caps) (k : cont)
  : result :=
  match nth_error s i with
  | Some x => if p x then k (S i) c else None
  | None => None
  end.

(** The backtracking matcher, in continuation-passing style: [m r s i c k]
    matches [r] in [s] from position [i] and hands every end position, in
    the order of preference of [re], to [k] until [k] accepts one. *)
Fixpoint m (r : regex) (s : text) (i : nat) (c : caps) (k : cont) : result :=
  match r with
  | Lit a => step (fun x => (x =? a)%N) s i c k
  | LitI a => step (icase_eq a) s i c k
  | Cls neg items => step (cls_match neg items) s i c k
  | Bnd => if at_boundary s i then k i c else None
  | Cat r1 r2 => m r1 s i c (fun j c' => m r2 s j c' k)
  | Alt r1 r2 =>
      match m r1 s i c k with
      | Some res => Some res
      | None => m r2 s i c k
      end
  | Rep lo hi r' => rep_loop (m r' s) k (S (length s - i)) lo hi i c
  | Grp r' => m r' s i c (fun j _ => k j (Some (i, j)))
  end.

(** One attempt of the pattern at position [i].  With [must_advance] an empty
    match is refused and the matcher backtracks (the attempt [findall] makes
    right after an empty match). *)
Definition match_at (r : regex) (s : text) (i : nat) (must_advance : bool)
  : result :=
  m r s i None
    (fun j c => if must_advance && (j =? i) then None else Some (j, c)).

(** What [findall] reports for a match: the capturing group when the pattern
    has one, the whole match otherwise. *)
Definition item (r : regex) (s : text) (i j : nat) (c : caps) : text :=
  if has_group r
  then match c with Some (a, b) => sub s a b | None => [] end
  else sub s i j.

(** [scan] walks the start positions in increasing order; positions before
    [next], the end of the last match, are skipped. *)
Fixpoint scan (r : regex) (s : text) (ps : list nat) (next : nat)
  : list text :=
  match ps with
  | [] => []
  | p :: ps' =>
      if p <? next then scan r s ps' next
      else
        match match_at r s p false with
        | None => scan r s ps' next
        | Some (e, c) =>
            if p <? e then item r s p e c :: scan r s ps' e
            else
              item r s p e c ::
              match match_at r s p true with
              | None => scan r s ps' next
              | Some (e', c') => item r s p e' c' :: scan r s ps' e'
              end
        end
  end.

Definition positions (s : text) : list nat := seq 0 (S (length s)).

Definition findall (r : regex) (s : text) : list text :=
  scan r s (positions s) 0.

(** [re.search(r, s)] as a truth value. *)
Definition search (r : regex) (s : text) : bool :=
  existsb (fun p => match match_at r s p false with
                    | Some _ => true
                    | None => false
                    end) (positions s).

End Engine.

(** ** [sorted] and [set] on strings

    Python compares strings code point by code point. *)

Fixpoint text_eqb (a b : text) : bool :=
  match a, b with
  | [], [] => true
  | x :: a', y :: b' => (x =? y)%N && text_eqb a' b'
  | _, _ => false
  end.

Fixpoint text_leb (a b : text) : bool :=
  match a, b with
  | [], _ => true
  | _ :: _, [] => false
  | x :: a', y :: b' =>
      if (x <? y)%N then true
      else if (y <? x)%N then false
      else text_leb a' b'
  end.

(** [x in l] for a list of strings. *)
Definition mem (x : text) (l : list text) : bool := existsb (text_eqb x) l.

Fixpoint insert_sorted (x : text) (l : list text) : list text :=
  match l with
  | [] => [x]
  | y :: l' => if text_leb x y then x :: l else y :: insert_sorted x l'
  end.

(** [sorted(l)]: a stable sort by [<=] on strings. *)
Definition py_sorted (l : list text) : list text :=
  fold_right insert_sorted [] l.

(** [set(l)] keeps one copy of every element.  The order in which Python
    iterates over a set depends on the hashes of its elements; [dedup] is
    one such order, and [is_set_order] describes all of them. *)
Fixpoint dedup (l : list text) : list text :=
  match l with
  | [] => []
  | x :: l' => if mem x l' then dedup l' else x :: dedup l'
  end.

Definition is_set_order (py_set : list text -> list text) : Prop :=
  forall l, NoDup (py_set l) /\ (forall x, In x (py_set l) <-> In x l).

(** ** The patterns of [extract_indicators] *)

Definition chr (a : ascii) : regex := Lit (cp a).
Definition rng (a b : ascii) : citem := CRange (cp a) (cp b).
Definition digit : regex := Cls false [CDigit].
Definition plus (r : regex) : regex := Rep 1 None r.
Definition opt (r : regex) : regex := Rep 0 (Some 1) r.

(** The characters of [t], one literal each, followed by [rest]. *)
Definition lits (mk : char -> regex) (t : text) (rest : regex) : regex :=
  fold_right (fun c r => Cat (mk c) r) rest t.

(** [\b(?:\d{1,3}\.){3}\d{1,3}\b] *)
Definition ip_re : regex :=
  Cat Bnd
 (Cat (Rep 3 (Some 3) (Cat (Rep 1 (Some 3) digit) (chr ".")))
 (Cat (Rep 1 (Some 3) digit)
      Bnd)).

(** [\b(?:[a-zA-Z0-9-]+\.)+[a-zA-Z]{2,}\b] *)
Definition domain_re : regex :=
  Cat Bnd
 (Cat (plus (Cat (plus (Cls false [rng "a" "z"; rng "A" "Z"; rng "0" "9";
                                   CChar (cp "-")]))
                 (chr ".")))
 (Cat (Rep 2 None (Cls false [rng "a" "z"; rng "A" "Z"]))
      Bnd)).

(** [\bhttps?://[^\s)>\Q]+\b], where Q stands for the double quote
    (code point 34) *)
Definition url_re : regex :=
  Cat Bnd
 (lits Lit (str "http")
 (Cat (opt (chr "s"))
 (lits Lit (str "://")
 (Cat (plus (Cls true [CSpace; CChar (cp ")"); CChar (cp ">"); CChar 34]))
      Bnd)))).

(** [(?:(?:/[^ \n\t\r]+)+)] *)
Definition unix_path_re : regex :=
  plus (Cat (chr "/")
            (plus (Cls true [CChar 32; CChar 10; CChar 9; CChar 13]))).

(** [\b[A-Za-z]:\\[^\n\r\t]+\b]; 92 is the backslash *)
Definition win_path_re : regex :=
  Cat Bnd
 (Cat (Cls false [rng "A" "Z"; rng "a" "z"])
 (Cat (chr ":")
 (Cat (Lit 92)
 (Cat (plus (Cls true [CChar 10; CChar 13; CChar 9]))
      Bnd)))).

(** [\b(1\d{2}|2\d{2}|3\d{2}|4\d{2}|5\d{2})\b] *)
Definition status_re : regex :=
  Cat Bnd
 (Cat (Grp (Alt (Cat (chr "1") (Rep 2 (Some 2) digit))
           (Alt (Cat (chr "2") (Rep 2 (Some 2) digit))
           (Alt (Cat (chr "3") (Rep 2 (Some 2) digit))
           (Alt (Cat (chr "4") (Rep 2 (Some 2) digit))
                (Cat (chr "5") (Rep 2 (Some 2) digit)))))))
      Bnd).

(** [\b{kw}\b], compiled with [re.IGNORECASE] *)
Definition kw_re (kw : text) : regex := Cat Bnd (lits LitI kw Bnd).

Definition KEYWORDS : list text :=
  [str "error"; str "failed"; str "denied"; str "timeout"; str "exception";
   str "forbidden"; str "unauthorized"].

(** ** The report *)

Record report : Type := {
  ok : bool;
  counts : list (string * nat);
  ips : list text;
  domains : list text;
  urls : list text;
  file_paths : list text;
  status_codes : list text;
  keywords : list text
}.

(** [d[key]] for the [counts] dictionary; [None] when the key is absent. *)
Fixpoint get (d : list (string * nat)) (key : string) : option nat :=
  match d with
  | [] => None
  | (k, v) :: d' => if String.eqb k key then Some v else get d' key
  end.

(** [log_text or ""] *)
Definition or_empty (log_text : option text) : text :=
  match log_text with
  | Some t => t
  | None => []
  end.

Section Extractor.

Variable db : UnicodeDB.

(** [extract_indicators], for an iteration order [py_set] of Python's sets. *)
Definition extract_indicators_with (py_set : list text -> list text)
    (log_text : option text) : report :=
  let txt := or_empty log_text in
  let ips := py_sorted (py_set (findall db ip_re txt)) in
  let domains_all := findall db domain_re txt in
  let domains :=
    py_sorted (py_set (filter (fun d => negb (mem d ips)) domains_all)) in
  let urls := py_sorted (py_set (findall db url_re txt)) in
  let file_paths :=
    py_sorted (py_set (findall db unix_path_re txt
                       ++ findall db win_path_re txt)) in
  let statuses := py_sorted (py_set (findall db status_re txt)) in
  let keywords := filter (fun kw => search db (kw_re kw) txt) KEYWORDS in
  {| ok := true;
     counts := [("ips"%string, length ips);
                ("domains"%string, length domains);
                ("urls"%string, length urls);
                ("file_paths"%string, length file_paths);
                ("status_codes"%string, length statuses)];
     ips := ips;
     domains := domains;
     urls := urls;
     file_paths := file_paths;
     status_codes := statuses;
     keywords := keywords |}.

Definition extract_indicators : option text -> report :=
  extract_indicators_with dedup.

End Extractor.

(** A database without any character beyond ASCII. *)
Definition ascii_db : UnicodeDB :=
  {| uni_decimal := fun _ => false;
     uni_alnum := fun _ => false;
     uni_space := fun _ => false;
     uni_icase := fun _ _ => false;
     uni_digit_value := fun _ => 0%N |}.

(** ** What a match is

    [matches s r i c j c']: the pattern [r] matches the characters of [s]
    from position [i] up to position [j], and turns the group span [c] into
    [c'].  The relation describes every way in which [r] can match; the
    matcher [m] picks one of them. *)

Section Semantics.

Variable db : UnicodeDB.
Variable s : text.

Inductive matches : regex -> nat -> caps -> nat -> caps -> Prop :=
| M_Lit a i c :
    nth_error s i = Some a -> matches (Lit a) i c (S i) c
| M_LitI a x i c :
    nth_error s i = Some x -> icase_eq db a x = true ->
    matches (LitI a) i c (S i) c
| M_Cls neg items x i c :
    nth_error s i = Some x -> cls_match db neg items x = true ->
    matches (Cls neg items) i c (S i) c
| M_Bnd i c :
    at_boundary db s i = true -> matches Bnd i c i c
| M_Cat r1 r2 i c j c' k c'' :
    matches r1 i c j c' -> matches r2 j c' k c'' ->
    matches (Cat r1 r2) i c k c''
| M_AltL r1 r2 i c j c' :
    matches r1 i c j c' -> matches (Alt r1 r2) i c j c'
| M_AltR r1 r2 i c j c' :
    matches r2 i c j c' -> matches (Alt r1 r2) i c j c'
| M_RepStop hi r i c :
    matches (Rep 0 hi r) i c i c
| M_RepMore lo hi r i c j c' k c'' :
    hi_allows hi = true -> matches r i c j c' -> i < j ->
    matches (Rep (pred lo) (hi_pred hi) r) j c' k c'' ->
    matches (Rep lo hi r) i c k c''
| M_Grp r i c j c' :
    matches r i c j c' -> matches (Grp r) i c j (Some (i, j)).

End Semantics.

(** ** Notions used in the statements *)

(** The order of strings, and its strict part. *)
Definition text_le (a b : text) : Prop := text_leb a b = true.
Definition text_lt (a b : text) : Prop := text_leb a b = true /\ a <> b.

(** Two continuations that agree on the positions a match from [i] can end
    at: [i] itself and the positions of the text after it. *)
Definition agree_from (s : text) (i : nat) (k1 k2 : cont) : Prop :=
  forall j c, i <= j -> j <= length s \/ j = i -> k1 j c = k2 j c.

(** No match that starts before [p] reaches beyond [p]. *)
Definition clear_before (db : UnicodeDB) (r : regex) (s : text) (p : nat)
  : Prop :=
  forall q e c, q < p -> matches db s r q None e c -> e <= p.

(** The report without any indicator. *)
Definition empty_report : report :=
  {| ok := true;
     counts := [("ips"%string, 0); ("domains"%string, 0); ("urls"%string, 0);
                ("file_paths"%string, 0); ("status_codes"%string, 0)];
     ips := []; domains := []; urls := []; file_paths := [];
     status_codes := []; keywords := [] |}.

(** Sorted in ascending order and without duplicates. *)
Definition sorted_nodup (l : list text) : Prop :=
  StronglySorted text_le l /\ NoDup l.

(** [subseq l1 l2]: [l1] is [l2] with some elements left out. *)
Inductive subseq {A : Type} : list A -> list A -> Prop :=
| subseq_nil : subseq [] []
| subseq_skip x l1 l2 : subseq l1 l2 -> subseq l1 (x :: l2)
| subseq_take x l1 l2 : subseq l1 l2 -> subseq (x :: l1) (x :: l2).

(** A standalone three-digit token at position [p]: a character from 1 to
    5 and two digits, with a word boundary before and after. *)
Definition status_token (db : UnicodeDB) (s : text) (p : nat) : bool :=
  match nth_error s p, nth_error s (S p), nth_error s (S (S p)) with
  | Some a, Some b, Some c =>
      between 49 53 a && is_digit db b && is_digit db c
      && at_boundary db s p && at_boundary db s (3 + p)
  | _, _, _ => false
  end.

(** The characters of [kw] stand in [s] from position [i] on, case being
    ignored. *)
Fixpoint prefix_icase (db : UnicodeDB) (kw s : text) (i : nat) : bool :=
  match kw with
  | [] => true
  | a :: kw' =>
      match nth_error s i with
      | Some x => icase_eq db a x && prefix_icase db kw' s (S i)
      | None => false
      end
  end.

(** [kw] occurs at position [p] as a whole word: with a word boundary on
    either side. *)
Definition whole_word_at (db : UnicodeDB) (kw s : text) (p : nat) : bool :=
  at_boundary db s p && prefix_icase db kw s p
  && at_boundary db s (length kw + p).

Definition occurs_whole_word (db : UnicodeDB) (kw s : text) : bool :=
  existsb (whole_word_at db kw s) (positions s).

(** The domains of the report as they would be without the exclusion of the
    ips: the distinct matches of the domain pattern, sorted. *)
Definition domains_unfiltered (db : UnicodeDB) (log_text : option text)
  : list text :=
  py_sorted (dedup (findall db domain_re (or_empty log_text))).

(** ** Status codes as numbers *)

(** The value of a decimal digit, and [int(x)] for a string of digits. *)
Definition digit_value (db : UnicodeDB) (c : char) : N :=
  if (c <? 128)%N then (c - 48)%N else uni_digit_value db c.

Definition int_of (db : UnicodeDB) (x : text) : N :=
  fold_left (fun acc c => (10 * acc + digit_value db c)%N) x 0%N.

Definition ascii_digits (x : text) : bool := forallb ascii_digit x.

(** The shape of a status code: a character from 1 to 5 and two characters
    that [\d] matches. *)
Definition status_shape (db : UnicodeDB) (x : text) : Prop :=
  exists a b c, x = [a; b; c] /\ between 49 53 a = true
                /\ is_digit db b = true /\ is_digit db c = true.

(** The part of the Unicode database that covers the Arabic-Indic digits,
    U+0660 to U+0669: decimal digits with the values 0 to 9. *)
Definition arabic_indic_db : UnicodeDB :=
  {| uni_decimal := between 1632 1641;
     uni_alnum := fun _ => false;
     uni_space := fun _ => false;
     uni_icase := fun _ _ => false;
     uni_digit_value := fun c => (c - 1632)%N |}.

(** ** Tokens of a text *)


(** Space, newline, tab and carriage return: what ends a Unix-style path. *)
Definition is_blank (c : char) : bool :=
  ((c =? 32) || (c =? 10) || (c =? 9) || (c =? 13))%N.

(** Newline, carriage return and tab: what ends a Windows-style path. *)
Definition is_break (c : char) : bool :=
  ((c =? 10) || (c =? 13) || (c =? 9))%N.

Definition delim_before (delim : char -> bool) (s : text) (p : nat) : bool :=
  match p with
  | 0 => true
  | S q => match nth_error s q with Some c => delim c | None => false end
  end.

Definition delim_at (delim : char -> bool) (s : text) (p : nat) : bool :=
  match nth_error s p with Some c => delim c | None => true end.

(** [tok] stands in [s] at position [p], between two delimiters or ends of
    the text. *)
Definition token_at (delim : char -> bool) (tok s : text) (p : nat) : bool :=
  text_eqb (sub s p (length tok + p)) tok
  && delim_before delim s p && delim_at delim s (length tok + p).

Definition has_token (delim : char -> bool) (tok s : text) : bool :=
  existsb (token_at delim tok s) (positions s).

(** Every character that [r] can consume satisfies [P]. *)
Fixpoint regex_chars (db : UnicodeDB) (P : char -> Prop) (r : regex) : Prop :=
  match r with
  | Lit a => P a
  | LitI a => forall x, icase_eq db a x = true -> P x
  | Cls neg items => forall x, cls_match db neg items x = true -> P x
  | Bnd => True
  | Cat r1 r2 | Alt r1 r2 => regex_chars db P r1 /\ regex_chars db P r2
  | Rep _ _ r' | Grp r' => regex_chars db P r'
  end.

(** ** Standalone tokens

    A token is standalone for a class [P] of characters when no character
    of the class comes directly before it or directly after it. *)

Definition char_before (P : char -> bool) (s : text) (p : nat) : bool :=
  match p with
  | 0 => false
  | S q => match nth_error s q with Some c => P c | None => false end
  end.

Definition char_at (P : char -> bool) (s : text) (p : nat) : bool :=
  match nth_error s p with Some c => P c | None => false end.

Definition standalone (P : char -> bool) (s : text) (p e : nat) : bool :=
  negb (char_before P s p) && negb (char_at P s e).

(** Letters and digits: the word characters without the underscore. *)
Definition is_alnum (db : UnicodeDB) (c : char) : bool :=
  if (c <? 128)%N
  then ascii_digit c || ascii_upper c || ascii_lower c
  else uni_decimal db c || uni_alnum db c.

(** Three characters from position [p]: one of the ASCII digits 1 to 5 and
    two characters that [\d] matches. *)
Definition code_chars (db : UnicodeDB) (s : text) (p : nat) : bool :=
  match nth_error s p, nth_error s (S p), nth_error s (S (S p)) with
  | Some a, Some b, Some c =>
      between 49 53 a && is_digit db b && is_digit db c
  | _, _, _ => false
  end.

(** Three decimal digits from position [p], the first with a value from 1
    to 5. *)
Definition code_digits (db : UnicodeDB) (s : text) (p : nat) : bool :=
  match nth_error s p, nth_error s (S p), nth_error s (S (S p)) with
  | Some a, Some b, Some c =>
      is_digit db a && is_digit db b && is_digit db c
      && (1 <=? digit_value db a)%N && (digit_value db a <=? 5)%N
  | _, _, _ => false
  end.

(** A status code as the code finds it: standalone among the word
    characters (letters, digits and the underscore). *)
Definition standalone_code (db : UnicodeDB) (s : text) (p : nat) : bool :=
  code_chars db s p && standalone (is_word db) s p (3 + p).

(** A three-digit token that neither begins nor ends inside a run of letters
    and digits. *)
Definition alnum_bounded_code (db : UnicodeDB) (s : text) (p : nat) : bool :=
  code_digits db s p && standalone (is_alnum db) s p (3 + p).

(** A keyword as the code finds it: standalone among the word characters. *)
Definition standalone_word_at (db : UnicodeDB) (kw s : text) (p : nat)
  : bool :=
  prefix_icase db kw s p && standalone (is_word db) s p (length kw + p).

Definition occurs_standalone (db : UnicodeDB) (kw s : text) : bool :=
  existsb (standalone_word_at db kw s) (positions s).

(** A keyword between edges that are not letters or digits. *)
Definition alnum_bounded_word_at (db : UnicodeDB) (kw s : text) (p : nat)
  : bool :=
  prefix_icase db kw s p && standalone (is_alnum db) s p (length kw + p).

(** In the Unicode database, what matches a letter when case is ignored is
    a letter. *)
Definition cased_are_word (db : UnicodeDB) : Prop :=
  forall a x, uni_icase db a x = true ->
              uni_decimal db x || uni_alnum db x = true.

(** ** A Windows path inside a line *)




(** ** The language of a pattern

    [lang db r x]: the string [x] is one that [r] can consume, the
    assertion [\b] left aside. *)

Inductive lang (db : UnicodeDB) : regex -> text -> Prop :=
| L_Lit a : lang db (Lit a) [a]
| L_LitI a x : icase_eq db a x = true -> lang db (LitI a) [x]
| L_Cls neg items x :
    cls_match db neg items x = true -> lang db (Cls neg items) [x]
| L_Bnd : lang db Bnd []
| L_Cat r1 r2 u v :
    lang db r1 u -> lang db r2 v -> lang db (Cat r1 r2) (u ++ v)
| L_AltL r1 r2 u : lang db r1 u -> lang db (Alt r1 r2) u
| L_AltR r1 r2 u : lang db r2 u -> lang db (Alt r1 r2) u
| L_RepStop hi r : lang db (Rep 0 hi r) []
| L_RepMore lo hi r u v :
    hi_allows hi = true -> lang db r u -> u <> [] ->
    lang db (Rep (pred lo) (hi_pred hi) r) v ->
    lang db (Rep lo hi r) (u ++ v)
| L_Grp r u : lang db r u -> lang db (Grp r) u.

(** The least number of characters a match of [r] consumes. *)
Fixpoint min_len (r : regex) : nat :=
  match r with
  | Lit _ | LitI _ | Cls _ _ => 1
  | Bnd => 0
  | Cat r1 r2 => min_len r1 + min_len r2
  | Alt r1 r2 => Nat.min (min_len r1) (min_len r2)
  | Rep lo _ r' => lo * min_len r'
  | Grp r' => min_len r'
  end.

(** [x] stands in [s] as a contiguous part. *)
Definition substring_of (x s : text) : Prop :=
  exists pre post, s = pre ++ x ++ post.

(** ** The shape of the indicators *)

Definition ascii_letter (c : char) : bool := ascii_upper c || ascii_lower c.

(** One to three characters that [\d] matches. *)
Definition digit_group (db : UnicodeDB) (g : text) : Prop :=
  1 <= length g <= 3 /\ forallb (is_digit db) g = true.

(** Four groups of digits with a dot (code point 46) between them. *)
Definition dotted_quad (db : UnicodeDB) (x : text) : Prop :=
  exists g1 g2 g3 g4,
    x = g1 ++ [46%N] ++ g2 ++ [46%N] ++ g3 ++ [46%N] ++ g4
    /\ digit_group db g1 /\ digit_group db g2
    /\ digit_group db g3 /\ digit_group db g4.

(** A letter, a digit, a hyphen or a dot. *)
Definition domain_char (c : char) : bool :=
  ascii_letter c || ascii_digit c || (c =? 45)%N || (c =? 46)%N.

(** Labels, a dot, and two or more letters. *)
Definition domain_shape (x : text) : Prop :=
  exists body tld,
    x = body ++ [46%N] ++ tld /\ body <> []
    /\ forallb domain_char body = true
    /\ 2 <= length tld /\ forallb ascii_letter tld = true.

(** What ends a url: white space, a closing parenthesis, a greater-than sign
    or a double quote. *)
Definition url_stop (db : UnicodeDB) (c : char) : bool :=
  is_space db c || (c =? 41)%N || (c =? 62)%N || (c =? 34)%N.

Definition url_shape (db : UnicodeDB) (x : text) : Prop :=
  exists rest,
    (x = str "http://" ++ rest \/ x = str "https://" ++ rest)
    /\ rest <> [] /\ forallb (fun c => negb (url_stop db c)) rest = true.

(** A slash and more, without a blank. *)
Definition unix_shape (x : text) : Prop :=
  exists rest,
    x = 47%N :: rest /\ rest <> []
    /\ forallb (fun c => negb (is_blank c)) x = true.

(** A drive letter, a colon, a backslash and more, without a tab, a newline
    or a carriage return. *)
Definition win_shape (x : text) : Prop :=
  exists d rest,
    x = d :: 58%N :: 92%N :: rest /\ ascii_letter d = true /\ rest <> []
    /\ forallb (fun c => negb (is_break c)) x = true.

(** ** Changing the case of a text *)

Definition ascii_toupper (c : char) : char :=
  if ascii_lower c then (c - 32)%N else c.

(** [s.upper()] and [s.lower()] on the ASCII letters of [s]. *)
Definition upper_ascii (s : text) : text := map ascii_toupper s.
Definition lower_ascii (s : text) : text := map ascii_tolower s.

(** ** Texts of several lines *)

(** Positions and group spans of a line, seen from the text that holds the
    line from position [a] on. *)
Definition shift (a : nat) (c : caps) : caps :=
  match c with
  | Some (x, y) => Some (a + x, a + y)
  | None => None
  end.

Definition lift (a : nat) (res : result) : result :=
  match res with
  | Some (e, c) => Some (a + e, shift a c)
  | None => None
  end.

(** The pattern cannot consume a newline (code point 10). *)
Definition newline_free (db : UnicodeDB) (r : regex) : Prop :=
  regex_chars db (fun ch => ch <> 10%N) r.

(** The continuations [k], on the text, and [k'], on the line, agree from
    position [i] of the line on. *)
Definition krel (a : nat) (t : text) (i : nat) (k k' : cont) : Prop :=
  forall j c, i <= j <= length t -> k (a + j) (shift a c) = lift a (k' j c).

(** The end of the group span is at most [n]. *)
Definition caps_le (c : caps) (n : nat) : Prop :=
  match c with
  | Some (_, y) => y <= n
  | None => True
  end.

(** ** Finding a given address *)

(** The pattern holds no [\b]. *)
Fixpoint bnd_free (r : regex) : bool :=
  match r with
  | Lit _ | LitI _ | Cls _ _ => true
  | Bnd => false
  | Cat r1 r2 | Alt r1 r2 => bnd_free r1 && bnd_free r2
  | Rep _ _ r' | Grp r' => bnd_free r'
  end.

(** The number of dots (code point 46) of a string. *)
Definition dots (x : text) : nat := length (filter (N.eqb 46) x).

(** The IP pattern without the [\b] at its ends. *)
Definition ip_core : regex :=
  Cat (Rep 3 (Some 3) (Cat (Rep 1 (Some 3) digit) (chr ".")))
      (Rep 1 (Some 3) digit).

(** * Properties *)

(** ** Strings: equality and order *)

Lemma text_eqb_eq (a b : text) : text_eqb a b = true <-> a = b.
Proof.
  revert b; induction a as [|x a IH]; intros [|y b]; simpl;
    try (split; congruence).
  rewrite andb_true_iff, N.eqb_eq, IH. split.
  - intros [-> ->]; reflexivity.
  - intros H; injection H; auto.
Qed.

Lemma text_eqb_refl (a : text) : text_eqb a a = true.
Proof. apply text_eqb_eq; reflexivity. Qed.

Lemma text_eqb_neq (a b : text) : text_eqb a b = false <-> a <> b.
Proof.
  rewrite <- text_eqb_eq. destruct (text_eqb a b); split; congruence.
Qed.

Lemma mem_In (x : text) (l : list text) : mem x l = true <-> In x l.
Proof.
  unfold mem. rewrite existsb_exists. split.
  - intros [y [Hin Heq]]. apply text_eqb_eq in Heq. subst; assumption.
  - intros Hin. exists x. split; [assumption | apply text_eqb_refl].
Qed.

Lemma mem_not_In (x : text) (l : list text) : mem x l = false <-> ~ In x l.
Proof.
  rewrite <- mem_In. destruct (mem x l); split; congruence.
Qed.

Lemma text_leb_total (a b : text) : text_leb a b = true \/ text_leb b a = true.
Proof.
  revert b; induction a as [|x a IH]; intros [|y b]; simpl; auto.
  destruct (N.ltb_spec x y), (N.ltb_spec y x); auto; lia.
Qed.

Lemma text_leb_antisym (a b : text) :
  text_leb a b = true -> text_leb b a = true -> a = b.
Proof.
  revert b; induction a as [|x a IH]; intros [|y b]; simpl;
    try congruence.
  destruct (N.ltb_spec x y), (N.ltb_spec y x); try congruence; try lia.
  intros Hab Hba. assert (x = y) by lia. subst.
  f_equal. apply IH; assumption.
Qed.

Lemma text_leb_trans (a b c : text) :
  text_leb a b = true -> text_leb b c = true -> text_leb a c = true.
Proof.
  revert b c; induction a as [|x a IH]; intros [|y b] [|z c]; simpl;
    try congruence.
  destruct (N.ltb_spec x y), (N.ltb_spec y x), (N.ltb_spec y z),
    (N.ltb_spec z y), (N.ltb_spec x z), (N.ltb_spec z x);
    try congruence; try lia.
  apply IH.
Qed.

Lemma text_lt_trans (a b c : text) : text_lt a b -> text_lt b c -> text_lt a c.
Proof.
  intros [Hab Nab] [Hbc Nbc]. split.
  - eapply text_leb_trans; eassumption.
  - intros ->. apply Nab. apply text_leb_antisym; assumption.
Qed.

Lemma text_lt_irrefl (a : text) : ~ text_lt a a.
Proof. intros [_ H]. apply H; reflexivity. Qed.

(** ** [sorted] *)

Lemma insert_sorted_perm (x : text) (l : list text) :
  Permutation (x :: l) (insert_sorted x l).
Proof.
  induction l as [|y l IH]; simpl; [apply Permutation_refl|].
  destruct (text_leb x y); [apply Permutation_refl|].
  eapply perm_trans; [apply perm_swap|]. apply perm_skip. exact IH.
Qed.

Lemma py_sorted_perm (l : list text) : Permutation l (py_sorted l).
Proof.
  induction l as [|x l IH]; simpl; [apply perm_nil|].
  eapply perm_trans; [|apply insert_sorted_perm].
  apply perm_skip. exact IH.
Qed.

Lemma py_sorted_In (l : list text) (x : text) : In x (py_sorted l) <-> In x l.
Proof.
  split; apply Permutation_in;
    [apply Permutation_sym|]; apply py_sorted_perm.
Qed.

Lemma py_sorted_NoDup (l : list text) : NoDup l -> NoDup (py_sorted l).
Proof. apply Permutation_NoDup, py_sorted_perm. Qed.

Lemma insert_sorted_sorted (x : text) (l : list text) :
  StronglySorted text_le l -> StronglySorted text_le (insert_sorted x l).
Proof.
  induction 1 as [|y l Hs IH Hall]; simpl.
  - constructor; constructor.
  - destruct (text_leb x y) eqn:E.
    + constructor; [constructor; assumption|].
      constructor; [exact E|].
      eapply Forall_impl; [|exact Hall].
      intros z Hz. eapply text_leb_trans; eassumption.
    + constructor; [exact IH|].
      apply Forall_forall. intros z Hz.
      apply (Permutation_in _ (Permutation_sym (insert_sorted_perm x l)))
        in Hz.
      destruct Hz as [<- | Hz].
      * destruct (text_leb_total x y) as [H | H]; [congruence | exact H].
      * rewrite Forall_forall in Hall. apply Hall; assumption.
Qed.

Lemma py_sorted_sorted (l : list text) : StronglySorted text_le (py_sorted l).
Proof.
  induction l as [|x l IH]; simpl; [constructor|].
  apply insert_sorted_sorted; assumption.
Qed.

(** A sorted list without duplicates is strictly increasing. *)
Lemma sorted_NoDup_strict (l : list text) :
  StronglySorted text_le l -> NoDup l -> StronglySorted text_lt l.
Proof.
  induction 1 as [|x l Hs IH Hall]; intros Hnd; [constructor|].
  inversion Hnd as [|? ? Hnot Hnd']; subst.
  constructor; [apply IH; assumption|].
  rewrite Forall_forall in *. intros y Hy. split; [apply Hall; assumption|].
  intros ->. contradiction.
Qed.

(** Two strictly increasing lists with the same elements are equal. *)
Lemma strict_sorted_unique (l1 l2 : list text) :
  StronglySorted text_lt l1 -> StronglySorted text_lt l2 ->
  (forall x, In x l1 <-> In x l2) -> l1 = l2.
Proof.
  intros H1; revert l2.
  induction H1 as [|x l1 Hs1 IH Hall1]; intros l2 H2 Heq.
  - destruct l2 as [|y l2]; [reflexivity|].
    exfalso. apply (proj2 (Heq y)). left; reflexivity.
  - destruct H2 as [|y l2 Hs2 Hall2].
    + exfalso. apply (proj1 (Heq x)). left; reflexivity.
    + rewrite Forall_forall in Hall1, Hall2.
      assert (x = y) as ->.
      { destruct (proj1 (Heq x) (or_introl eq_refl)) as [E | Hin];
          [congruence|].
        destruct (proj2 (Heq y) (or_introl eq_refl)) as [E | Hin'];
          [congruence|].
        exfalso. apply (@text_lt_irrefl x).
        eapply text_lt_trans; [apply Hall1 | apply Hall2]; eassumption. }
      f_equal. apply IH; [assumption|].
      intros z. split; intros Hz.
      * destruct (proj1 (Heq z) (or_intror Hz)) as [E | Hin]; [|assumption].
        subst z. exfalso. apply (@text_lt_irrefl y). apply Hall1; assumption.
      * destruct (proj2 (Heq z) (or_intror Hz)) as [E | Hin]; [|assumption].
        subst z. exfalso. apply (@text_lt_irrefl y). apply Hall2; assumption.
Qed.

Lemma py_sorted_strict (l : list text) :
  NoDup l -> StronglySorted text_lt (py_sorted l).
Proof.
  intros H. apply sorted_NoDup_strict;
    [apply py_sorted_sorted | apply py_sorted_NoDup; assumption].
Qed.

(** ** [set] *)

Lemma dedup_In (l : list text) (x : text) : In x (dedup l) <-> In x l.
Proof.
  induction l as [|y l IH]; simpl; [reflexivity|].
  destruct (mem y l) eqn:E; simpl; rewrite IH.
  - apply mem_In in E. split; [auto|]. intros [<- | H]; assumption.
  - reflexivity.
Qed.

Lemma dedup_NoDup (l : list text) : NoDup (dedup l).
Proof.
  induction l as [|y l IH]; simpl; [constructor|].
  destruct (mem y l) eqn:E; [assumption|].
  constructor; [|assumption].
  rewrite dedup_In. apply mem_not_In; assumption.
Qed.

Lemma dedup_is_set_order : is_set_order dedup.
Proof. intros l. split; [apply dedup_NoDup | apply dedup_In]. Qed.

Lemma rev_dedup_is_set_order : is_set_order (fun l => rev (dedup l)).
Proof.
  intros l. split.
  - apply NoDup_rev, dedup_NoDup.
  - intros x. rewrite <- in_rev. apply dedup_In.
Qed.

(** The sorted list of a set does not depend on the iteration order. *)
Lemma sorted_set_order (set1 set2 : list text -> list text)
    (l1 l2 : list text) :
  is_set_order set1 -> is_set_order set2 ->
  (forall x, In x l1 <-> In x l2) ->
  py_sorted (set1 l1) = py_sorted (set2 l2).
Proof.
  intros H1 H2 Heq.
  destruct (H1 l1) as [Hnd1 Hin1], (H2 l2) as [Hnd2 Hin2].
  apply strict_sorted_unique; try (apply py_sorted_strict; assumption).
  intros x. rewrite !py_sorted_In, Hin1, Hin2. apply Heq.
Qed.

(** ** The matcher *)

Section MatcherFacts.

Variable db : UnicodeDB.
Variable s : text.

Lemma agree_from_later (i j : nat) (k1 k2 : cont) :
  agree_from s i k1 k2 -> i <= j -> j <= length s \/ j = i ->
  agree_from s j k1 k2.
Proof.
  intros H Hij Hj j' c Hjj' Hj'. apply H; [lia|].
  destruct Hj' as [Hj' | ->]; [left; assumption | assumption].
Qed.

Lemma step_ext (p : char -> bool) (i : nat) (c : caps) (k1 k2 : cont) :
  agree_from s i k1 k2 -> step p s i c k1 = step p s i c k2.
Proof.
  intros H. unfold step. destruct (nth_error s i) as [x|] eqn:E; [|reflexivity].
  destruct (p x); [|reflexivity].
  assert (i < length s) by (apply nth_error_Some; congruence).
  apply H; lia.
Qed.

Lemma rep_loop_ext (body : nat -> caps -> cont -> result) :
  (forall i c k1 k2, agree_from s i k1 k2 -> body i c k1 = body i c k2) ->
  forall n lo hi i c k1 k2,
    agree_from s i k1 k2 ->
    rep_loop body k1 n lo hi i c = rep_loop body k2 n lo hi i c.
Proof.
  intros Hb. induction n as [|n IH]; intros lo hi i c k1 k2 H; simpl.
  - rewrite (H i c); [reflexivity | lia | right; reflexivity].
  - rewrite (H i c); [| lia | right; reflexivity].
    destruct (hi_allows hi); [|reflexivity].
    erewrite Hb; [reflexivity|].
    intros j c' Hij Hj. destruct (i <? j); [|reflexivity].
    apply IH. eapply agree_from_later; eassumption.
Qed.

Lemma m_ext (r : regex) : forall i c k1 k2,
  agree_from s i k1 k2 -> m db r s i c k1 = m db r s i c k2.
Proof.
  induction r as [a | a | neg items | | r1 IH1 r2 IH2 | r1 IH1 r2 IH2
                 | lo hi r IH | r IH]; intros i c k1 k2 H; cbn [m].
  - apply step_ext; assumption.
  - apply step_ext; assumption.
  - apply step_ext; assumption.
  - rewrite (H i c); [reflexivity | lia | right; reflexivity].
  - apply IH1. intros j c' Hij Hj. apply IH2.
    eapply agree_from_later; eassumption.
  - rewrite (IH1 i c k1 k2 H), (IH2 i c k1 k2 H). reflexivity.
  - apply rep_loop_ext; assumption.
  - apply IH. intros j c' Hij Hj. apply H; assumption.
Qed.

(** The bound on the iterations never cuts a repetition short. *)
Lemma rep_loop_fuel (r : regex) (k : cont) : forall n n' lo hi i c,
  length s - i < n -> length s - i < n' ->
  rep_loop (m db r s) k n lo hi i c = rep_loop (m db r s) k n' lo hi i c.
Proof.
  induction n as [|n IH]; intros n' lo hi i c Hn Hn'; [lia|].
  destruct n' as [|n']; [lia|]. simpl.
  destruct (hi_allows hi); [|reflexivity].
  erewrite m_ext; [reflexivity|].
  intros j c' Hij Hj. destruct (i <? j) eqn:E; [|reflexivity].
  apply Nat.ltb_lt in E. apply IH; lia.
Qed.

Lemma rep_loop_S (body : nat -> caps -> cont -> result) (k : cont)
    (n lo : nat) (hi : option nat) (i : nat) (c : caps) :
  rep_loop body k (S n) lo hi i c =
  match (if hi_allows hi then
           body i c (fun j c' =>
             if i <? j then rep_loop body k n (pred lo) (hi_pred hi) j c'
             else None)
         else None) with
  | Some res => Some res
  | None => if lo =? 0 then k i c else None
  end.
Proof. reflexivity. Qed.

(** The equation of a greedy repetition. *)
Lemma m_Rep (lo : nat) (hi : option nat) (r : regex) (i : nat) (c : caps)
    (k : cont) :
  m db (Rep lo hi r) s i c k =
  match (if hi_allows hi then
           m db r s i c (fun j c' =>
             if i <? j then m db (Rep (pred lo) (hi_pred hi) r) s j c' k
             else None)
         else None) with
  | Some res => Some res
  | None => if lo =? 0 then k i c else None
  end.
Proof.
  cbn [m]. rewrite rep_loop_S.
  destruct (hi_allows hi); [|reflexivity].
  erewrite m_ext; [reflexivity|].
  intros j c' Hij Hj. destruct (i <? j) eqn:E; [|reflexivity].
  apply Nat.ltb_lt in E. apply rep_loop_fuel; lia.
Qed.

Lemma matches_bounds (r : regex) (i j : nat) (c c' : caps) :
  matches db s r i c j c' -> i <= j /\ (j <= length s \/ j = i).
Proof.
  induction 1;
    try (assert (i < length s) by (apply nth_error_Some; congruence));
    try lia.
Qed.

(** Soundness: what the matcher finds is a match. *)
Lemma rep_loop_sound (r : regex) (k : cont) :
  (forall i c k res, m db r s i c k = Some res ->
     exists j c', matches db s r i c j c' /\ k j c' = Some res) ->
  forall n lo hi i c res,
    rep_loop (m db r s) k n lo hi i c = Some res ->
    exists j c', matches db s (Rep lo hi r) i c j c' /\ k j c' = Some res.
Proof.
  intros Hb. induction n as [|n IH]; intros lo hi i c res; simpl.
  - destruct lo; simpl; [|discriminate].
    intros H. exists i, c. split; [constructor | assumption].
  - destruct (hi_allows hi) eqn:Ehi.
    + destruct (m db r s i c _) as [res'|] eqn:E.
      * intros [= <-]. apply Hb in E. destruct E as (j & c' & Hm & Hk).
        destruct (i <? j) eqn:Eij; [|discriminate].
        apply Nat.ltb_lt in Eij. apply IH in Hk.
        destruct Hk as (j' & c'' & Hm' & Hk').
        exists j', c''. split; [|assumption].
        eapply M_RepMore; eassumption.
      * destruct lo; simpl; [|discriminate].
        intros H. exists i, c. split; [constructor | assumption].
    + destruct lo; simpl; [|discriminate].
      intros H. exists i, c. split; [constructor | assumption].
Qed.

Lemma m_sound (r : regex) : forall i c k res,
  m db r s i c k = Some res ->
  exists j c', matches db s r i c j c' /\ k j c' = Some res.
Proof.
  induction r as [a | a | neg items | | r1 IH1 r2 IH2 | r1 IH1 r2 IH2
                 | lo hi r IH | r IH]; intros i c k res; cbn [m].
  - unfold step. destruct (nth_error s i) as [x|] eqn:E; [|discriminate].
    destruct (N.eqb_spec x a); [|discriminate]. subst x.
    intros H. exists (S i), c. split; [constructor; assumption | assumption].
  - unfold step. destruct (nth_error s i) as [x|] eqn:E; [|discriminate].
    destruct (icase_eq db a x) eqn:Ex; [|discriminate].
    intros H. exists (S i), c. split; [econstructor; eassumption | assumption].
  - unfold step. destruct (nth_error s i) as [x|] eqn:E; [|discriminate].
    destruct (cls_match db neg items x) eqn:Ex; [|discriminate].
    intros H. exists (S i), c. split; [econstructor; eassumption | assumption].
  - destruct (at_boundary db s i) eqn:E; [|discriminate].
    intros H. exists i, c. split; [constructor; assumption | assumption].
  - intros H. apply IH1 in H. destruct H as (j & c' & Hm1 & H).
    apply IH2 in H. destruct H as (j' & c'' & Hm2 & H).
    exists j', c''. split; [econstructor; eassumption | assumption].
  - destruct (m db r1 s i c k) as [res'|] eqn:E.
    + intros [= <-]. apply IH1 in E. destruct E as (j & c' & Hm & H).
      exists j, c'. split; [apply M_AltL; assumption | assumption].
    + intros H. apply IH2 in H. destruct H as (j & c' & Hm & H).
      exists j, c'. split; [apply M_AltR; assumption | assumption].
  - apply rep_loop_sound. exact IH.
  - intros H. apply IH in H. destruct H as (j & c' & Hm & H).
    exists j, (Some (i, j)). split; [econstructor; eassumption | assumption].
Qed.

(** Completeness: the matcher tries every match, so it succeeds as soon as
    the continuation accepts the end of some match. *)
Lemma m_complete (r : regex) (i j : nat) (c c' : caps) :
  matches db s r i c j c' ->
  forall k, k j c' <> None -> m db r s i c k <> None.
Proof.
  induction 1 as [a i c E | a x i c E Ex | neg items x i c E Ex | i c E
                 | r1 r2 i c j c' j' c'' _ IH1 _ IH2
                 | r1 r2 i c j c' _ IH | r1 r2 i c j c' _ IH
                 | hi r i c
                 | lo hi r i c j c' j' c'' Ehi _ IH1 Hij _ IH2
                 | r i c j c' _ IH]; intros k Hk.
  - simpl. unfold step. rewrite E, N.eqb_refl. assumption.
  - simpl. unfold step. rewrite E, Ex. assumption.
  - simpl. unfold step. rewrite E, Ex. assumption.
  - simpl. rewrite E. assumption.
  - simpl. apply IH1. apply IH2. assumption.
  - simpl. specialize (IH k Hk).
    destruct (m db r1 s i c k); [discriminate | contradiction].
  - simpl. destruct (m db r1 s i c k); [discriminate|]. apply IH; assumption.
  - rewrite m_Rep. cbn [Nat.eqb].
    match goal with |- match ?x with _ => _ end <> None => destruct x end;
      [discriminate | assumption].
  - rewrite m_Rep, Ehi.
    match goal with |- context [m db r s i c ?k'] =>
      specialize (IH1 k'); destruct (m db r s i c k') end;
      [discriminate|].
    exfalso. apply IH1; [|reflexivity].
    apply Nat.ltb_lt in Hij. rewrite Hij. apply IH2. assumption.
  - simpl. apply IH. assumption.
Qed.

End MatcherFacts.

(** ** [findall] and [search] *)

Section FindallFacts.

Variable db : UnicodeDB.
Variable r : regex.
Variable s : text.

Lemma match_at_sound (p e : nat) (c : caps) (b : bool) :
  match_at db r s p b = Some (e, c) ->
  matches db s r p None e c /\ (b = true -> e <> p).
Proof.
  unfold match_at. intros H. apply m_sound in H.
  destruct H as (j & c' & Hm & Hk).
  destruct b; simpl in Hk.
  - destruct (Nat.eqb_spec j p); [discriminate|].
    injection Hk as <- <-. split; [assumption | intros _; assumption].
  - injection Hk as <- <-. split; [assumption | discriminate].
Qed.

Lemma match_at_complete (p e : nat) (c : caps) (b : bool) :
  matches db s r p None e c -> b = false \/ e <> p ->
  match_at db r s p b <> None.
Proof.
  intros Hm Hb. unfold match_at. eapply m_complete; [eassumption|].
  destruct Hb as [-> | Hne]; simpl; [discriminate|].
  apply Nat.eqb_neq in Hne. rewrite Hne, andb_false_r. discriminate.
Qed.

(** An attempt succeeds exactly when there is a match, and what it returns is
    one. *)
Lemma match_at_some (p e : nat) (c : caps) :
  matches db s r p None e c ->
  exists e' c', match_at db r s p false = Some (e', c')
                /\ matches db s r p None e' c'.
Proof.
  intros Hm.
  destruct (match_at db r s p false) as [[e' c']|] eqn:E.
  - exists e', c'. split; [reflexivity|].
    apply (match_at_sound _ _ E).
  - exfalso. eapply match_at_complete; [eassumption | left; reflexivity|].
    assumption.
Qed.

Lemma scan_sound (ps : list nat) : forall next x,
  In x (scan db r s ps next) ->
  exists p e c, In p ps /\ matches db s r p None e c /\ x = item r s p e c.
Proof.
  induction ps as [|p ps IH]; intros next x; simpl; [contradiction|].
  assert (Hrec : forall nx, In x (scan db r s ps nx) ->
    exists p0 e c, (p = p0 \/ In p0 ps) /\ matches db s r p0 None e c
                   /\ x = item r s p0 e c).
  { intros nx H. apply IH in H. destruct H as (p0 & e & c & Hin & H).
    exists p0, e, c. split; [right; assumption | assumption]. }
  destruct (p <? next); [apply Hrec|].
  destruct (match_at db r s p false) as [[e c]|] eqn:E; [|apply Hrec].
  apply match_at_sound in E. destruct E as [Hm _].
  assert (Hhere : x = item r s p e c ->
    exists p0 e0 c0, (p = p0 \/ In p0 ps) /\ matches db s r p0 None e0 c0
                     /\ x = item r s p0 e0 c0).
  { intros ->. exists p, e, c. split; [left; reflexivity|].
    split; [assumption | reflexivity]. }
  destruct (p <? e).
  - intros [<- | H]; [apply Hhere; reflexivity | apply Hrec in H; assumption].
  - intros [<- | H]; [apply Hhere; reflexivity|].
    destruct (match_at db r s p true) as [[e' c']|] eqn:E'; [|apply Hrec in H; assumption].
    apply match_at_sound in E'. destruct E' as [Hm' _].
    destruct H as [<- | H]; [|apply Hrec in H; assumption].
    exists p, e', c'. split; [left; reflexivity|].
    split; [assumption | reflexivity].
Qed.

(** Every element of [findall] is the item of a match. *)
Lemma findall_sound (x : text) :
  In x (findall db r s) ->
  exists p e c, matches db s r p None e c /\ x = item r s p e c.
Proof.
  intros H. apply scan_sound in H.
  destruct H as (p & e & c & _ & H). exists p, e, c. assumption.
Qed.

Lemma scan_complete (p e : nat) (c : caps) :
  clear_before db r s p ->
  match_at db r s p false = Some (e, c) ->
  forall n a next, a <= p < a + n -> next <= p ->
    In (item r s p e c) (scan db r s (seq a n) next).
Proof.
  intros Hclear Hp.
  induction n as [|n IH]; intros a next Ha Hnext; [lia|].
  simpl. destruct (Nat.eq_dec a p) as [-> | Hne].
  - destruct (Nat.ltb_spec p next); [lia|].
    rewrite Hp. destruct (p <? e); left; reflexivity.
  - assert (Hrec : forall nx, nx <= p ->
              In (item r s p e c) (scan db r s (seq (S a) n) nx)).
    { intros nx Hnx. apply IH; lia. }
    destruct (a <? next); [apply Hrec; assumption|].
    destruct (match_at db r s a false) as [[e1 c1]|] eqn:E1;
      [|apply Hrec; assumption].
    apply match_at_sound in E1. destruct E1 as [Hm1 _].
    assert (e1 <= p) by (eapply Hclear; [|eassumption]; lia).
    destruct (a <? e1); [right; apply Hrec; assumption|].
    right.
    destruct (match_at db r s a true) as [[e2 c2]|] eqn:E2;
      [|apply Hrec; assumption].
    apply match_at_sound in E2. destruct E2 as [Hm2 _].
    assert (e2 <= p) by (eapply Hclear; [|eassumption]; lia).
    right. apply Hrec; assumption.
Qed.

(** A successful attempt at a position that no earlier match covers is
    reported by [findall]. *)
Lemma findall_complete (p e : nat) (c : caps) :
  p <= length s -> clear_before db r s p ->
  match_at db r s p false = Some (e, c) ->
  In (item r s p e c) (findall db r s).
Proof.
  intros Hp Hclear Hm. unfold findall, positions.
  eapply scan_complete; try eassumption; lia.
Qed.

(** [search] succeeds exactly when the pattern matches somewhere. *)
Lemma search_true :
  search db r s = true <->
  exists p e c, p <= length s /\ matches db s r p None e c.
Proof.
  unfold search, positions. rewrite existsb_exists. split.
  - intros (p & Hin & H). apply in_seq in Hin.
    destruct (match_at db r s p false) as [[e c]|] eqn:E; [|discriminate].
    apply match_at_sound in E. exists p, e, c. split; [lia | apply E].
  - intros (p & e & c & Hp & Hm). exists p. split; [apply in_seq; lia|].
    destruct (match_at_some Hm) as (e' & c' & -> & _). reflexivity.
Qed.

End FindallFacts.

(** ** The report *)

Lemma filter_subseq {A : Type} (f : A -> bool) (l : list A) :
  subseq (filter f l) l.
Proof.
  induction l as [|x l IH]; simpl; [constructor|].
  destruct (f x); constructor; assumption.
Qed.


(** C1 (as stated, refuted): the [counts] dictionary has no entry for the
    keywords, also when the report lists a keyword. *)
Lemma counts_keywords_missing :
  let r := extract_indicators ascii_db (Some (str "login failed")) in
  keywords r = [str "failed"] /\ get (counts r) "keywords" = None.
Proof. vm_compute. split; reflexivity. Qed.

(** C1 (amended): for every input, [counts] has exactly the five entries
    ips, domains, urls, file_paths and status_codes, and each of them is the
    length of the list of that name in the report. *)
Theorem counts_are_lengths (db : UnicodeDB) (log_text : option text) :
  let r := extract_indicators db log_text in
  map fst (counts r)
    = ["ips"; "domains"; "urls"; "file_paths"; "status_codes"]%string
  /\ get (counts r) "ips" = Some (length (ips r))
  /\ get (counts r) "domains" = Some (length (domains r))
  /\ get (counts r) "urls" = Some (length (urls r))
  /\ get (counts r) "file_paths" = Some (length (file_paths r))
  /\ get (counts r) "status_codes" = Some (length (status_codes r)).
Proof. cbv zeta. repeat split. Qed.

(** C2: [extract_indicators] returns a report with [ok = true] for every
    input, and for the inputs [None] and the empty string the report has all
    counts zero and all lists empty. *)
Theorem extract_indicators_total (db : UnicodeDB) :
  (forall log_text,
     exists r, extract_indicators db log_text = r /\ ok r = true)
  /\ extract_indicators db None = empty_report
  /\ extract_indicators db (Some []) = empty_report.
Proof.
  split; [|split].
  - intros log_text. eexists. split; reflexivity.
  - vm_compute. reflexivity.
  - vm_compute. reflexivity.
Qed.

(** C3: on the text of the example the ips are exactly 10.0.0.1 and the
    domains exactly api.example.com, and for every input no element of [ips]
    is an element of [domains]. *)
Theorem ips_excluded_from_domains (db : UnicodeDB) :
  (let r := extract_indicators db
              (Some (str "Connect to 10.0.0.1 and api.example.com")) in
   ips r = [str "10.0.0.1"] /\ domains r = [str "api.example.com"])
  /\ (forall log_text x,
        In x (ips (extract_indicators db log_text)) ->
        ~ In x (domains (extract_indicators db log_text))).
Proof.
  split.
  - vm_compute. split; reflexivity.
  - intros log_text x Hip Hdom.
    unfold extract_indicators, extract_indicators_with in Hip, Hdom.
    cbn [ips domains] in Hip, Hdom.
    apply py_sorted_In, dedup_In, filter_In in Hdom.
    destruct Hdom as [_ Hdom]. apply negb_true_iff, mem_not_In in Hdom.
    contradiction.
Qed.

(** C6: in every report the lists ips, domains, urls, file_paths and
    status_codes are sorted in ascending order of strings and free of
    duplicates, and keywords is a subsequence of the fixed list of keywords,
    in the order of that list. *)
Theorem lists_sorted_nodup (db : UnicodeDB) (log_text : option text) :
  let r := extract_indicators db log_text in
  sorted_nodup (ips r) /\ sorted_nodup (domains r) /\ sorted_nodup (urls r)
  /\ sorted_nodup (file_paths r) /\ sorted_nodup (status_codes r)
  /\ subseq (keywords r) KEYWORDS.
Proof.
  cbv zeta. unfold extract_indicators, extract_indicators_with.
  cbn [ips domains urls file_paths status_codes keywords].
  repeat split;
    try (apply py_sorted_sorted);
    try (apply py_sorted_NoDup, dedup_NoDup).
  apply filter_subseq.
Qed.

(** C8: the report is a function of the input text alone: whatever the
    order in which the sets of the function are iterated, on any two runs,
    the reports are the same. *)
Theorem extract_indicators_deterministic (db : UnicodeDB)
    (set1 set2 : list text -> list text) (log_text : option text) :
  is_set_order set1 -> is_set_order set2 ->
  extract_indicators_with db set1 log_text
  = extract_indicators_with db set2 log_text.
Proof.
  intros H1 H2. unfold extract_indicators_with.
  assert (Hips : py_sorted (set1 (findall db ip_re (or_empty log_text)))
               = py_sorted (set2 (findall db ip_re (or_empty log_text))))
    by (apply sorted_set_order; tauto).
  rewrite Hips.
  repeat match goal with
  | |- context [py_sorted (set1 ?l)] =>
      rewrite (@sorted_set_order set1 set2 l l H1 H2 (fun x => iff_refl _))
  end.
  reflexivity.
Qed.

(** The two iteration orders [dedup] and its reverse on a sample text. *)
Lemma extract_indicators_deterministic_witness :
  extract_indicators_with ascii_db dedup
    (Some (str "GET /a 404 from 10.0.0.1 and 10.0.0.1"))
  = extract_indicators_with ascii_db (fun l => rev (dedup l))
      (Some (str "GET /a 404 from 10.0.0.1 and 10.0.0.1")).
Proof.
  apply extract_indicators_deterministic.
  - apply dedup_is_set_order.
  - apply rev_dedup_is_set_order.
Defined.

(** ** Status codes *)

Ltac inv_matches :=
  repeat match goal with
  | H : matches _ _ (Cat _ _) _ _ _ _ |- _ => inversion H; clear H; subst
  | H : matches _ _ (Alt _ _) _ _ _ _ |- _ => inversion H; clear H; subst
  | H : matches _ _ (Grp _) _ _ _ _ |- _ => inversion H; clear H; subst
  | H : matches _ _ (Lit _) _ _ _ _ |- _ => inversion H; clear H; subst
  | H : matches _ _ (LitI _) _ _ _ _ |- _ => inversion H; clear H; subst
  | H : matches _ _ (Cls _ _) _ _ _ _ |- _ => inversion H; clear H; subst
  | H : matches _ _ Bnd _ _ _ _ |- _ => inversion H; clear H; subst
  | H : matches _ _ (Rep _ (Some _) _) _ _ _ _ |- _ =>
      inversion H; clear H; subst; cbn [pred hi_pred option_map] in *;
      try discriminate
  end.

Section StatusFacts.

Variable db : UnicodeDB.
Variable s : text.

Lemma cls_digit (x : char) : cls_match db false [CDigit] x = is_digit db x.
Proof. unfold cls_match. simpl. rewrite orb_false_r. reflexivity. Qed.

Lemma two_digits (i : nat) (c : caps) (x y : char) :
  nth_error s i = Some x -> is_digit db x = true ->
  nth_error s (S i) = Some y -> is_digit db y = true ->
  matches db s (Rep 2 (Some 2) digit) i c (S (S i)) c.
Proof.
  intros Hx Dx Hy Dy.
  eapply M_RepMore;
    [reflexivity
    | eapply M_Cls; [eassumption | rewrite cls_digit; assumption]
    | lia |].
  eapply M_RepMore;
    [reflexivity
    | eapply M_Cls; [eassumption | rewrite cls_digit; assumption]
    | lia |].
  apply M_RepStop.
Qed.

Lemma status_matches (p e : nat) (c : caps) :
  matches db s status_re p None e c <->
  status_token db s p = true /\ e = 3 + p /\ c = Some (p, 3 + p).
Proof.
  split.
  - intros H. unfold status_re, chr, digit in H. inv_matches.
    all: repeat match goal with
         | H : cls_match _ _ _ _ = true |- _ => rewrite cls_digit in H
         end.
    all: unfold status_token; cbn [Nat.add].
    all: repeat match goal with
         | H : nth_error _ _ = Some _ |- _ => rewrite H
         | H : _ = true |- _ => rewrite H
         end.
    all: repeat split; reflexivity.
  - intros (H & -> & ->). unfold status_token in H. cbn [Nat.add] in H.
    destruct (nth_error s p) as [a|] eqn:Ea; [|discriminate].
    destruct (nth_error s (S p)) as [b|] eqn:Eb; [|discriminate].
    destruct (nth_error s (S (S p))) as [d|] eqn:Ed; [|discriminate].
    apply andb_true_iff in H; destruct H as [H B2].
    apply andb_true_iff in H; destruct H as [H B1].
    apply andb_true_iff in H; destruct H as [H D2].
    apply andb_true_iff in H; destruct H as [H D1].
    assert (Ha : (a = 49 \/ a = 50 \/ a = 51 \/ a = 52 \/ a = 53)%N).
    { unfold between in H. apply andb_true_iff in H.
      destruct H as [H1 H2]. apply N.leb_le in H1, H2. lia. }
    unfold status_re, chr. cbn [Nat.add].
    eapply M_Cat; [apply M_Bnd; assumption|].
    eapply M_Cat; [|apply M_Bnd; eassumption].
    apply M_Grp with (c' := None).
    destruct Ha as [-> | [-> | [-> | [-> | ->]]]].
    + apply M_AltL. eapply M_Cat; [apply M_Lit; exact Ea|].
      eapply two_digits; eassumption.
    + apply M_AltR, M_AltL. eapply M_Cat; [apply M_Lit; exact Ea|].
      eapply two_digits; eassumption.
    + apply M_AltR, M_AltR, M_AltL. eapply M_Cat; [apply M_Lit; exact Ea|].
      eapply two_digits; eassumption.
    + apply M_AltR, M_AltR, M_AltR, M_AltL.
      eapply M_Cat; [apply M_Lit; exact Ea|].
      eapply two_digits; eassumption.
    + apply M_AltR, M_AltR, M_AltR, M_AltR.
      eapply M_Cat; [apply M_Lit; exact Ea|].
      eapply two_digits; eassumption.
Qed.

Lemma is_digit_word (x : char) : is_digit db x = true -> is_word db x = true.
Proof.
  unfold is_digit, is_word. destruct (x <? 128)%N; intros ->; reflexivity.
Qed.

Lemma one_to_five_word (x : char) : between 49 53 x = true -> is_word db x = true.
Proof.
  unfold between. rewrite andb_true_iff, !N.leb_le. intros [H1 H2].
  unfold is_word, ascii_digit, between.
  destruct (N.ltb_spec x 128); [|lia].
  destruct (N.leb_spec 48 x); [|lia].
  destruct (N.leb_spec x 57); [|lia]. reflexivity.
Qed.

Lemma status_token_words (q : nat) :
  status_token db s q = true ->
  word_at db s q = true /\ word_at db s (S q) = true
  /\ word_at db s (S (S q)) = true /\ at_boundary db s q = true.
Proof.
  unfold status_token, word_at. cbn [Nat.add].
  destruct (nth_error s q) as [a|]; [|discriminate].
  destruct (nth_error s (S q)) as [b|]; [|discriminate].
  destruct (nth_error s (S (S q))) as [d|]; [|discriminate].
  intros H.
  apply andb_true_iff in H; destruct H as [H B2].
  apply andb_true_iff in H; destruct H as [H B1].
  apply andb_true_iff in H; destruct H as [H D2].
  apply andb_true_iff in H; destruct H as [H D1].
  auto using is_digit_word, one_to_five_word.
Qed.

Lemma status_token_bound (q : nat) :
  status_token db s q = true -> q <= length s.
Proof.
  unfold status_token. destruct (nth_error s q) eqn:E; [|discriminate].
  intros _. assert (q < length s) by (apply nth_error_Some; congruence). lia.
Qed.

(** Two standalone three-digit tokens do not overlap. *)
Lemma status_clear (p : nat) :
  status_token db s p = true -> clear_before db status_re s p.
Proof.
  intros Hp q e c Hq Hm. apply status_matches in Hm.
  destruct Hm as (Hq_tok & -> & _).
  apply status_token_words in Hq_tok. destruct Hq_tok as (W0 & W1 & W2 & _).
  apply status_token_words in Hp. destruct Hp as (_ & _ & _ & B).
  destruct (le_lt_dec (3 + q) p) as [Hle | Hlt]; [assumption|].
  exfalso. unfold at_boundary, word_before in B.
  assert (Hcase : p = S q \/ p = S (S q)) by lia.
  destruct Hcase as [-> | ->].
  - rewrite W0, W1 in B. discriminate.
  - rewrite W1, W2 in B. discriminate.
Qed.

Lemma findall_status (x : text) :
  In x (findall db status_re s) <->
  exists p, status_token db s p = true /\ x = sub s p (3 + p).
Proof.
  split.
  - intros H. apply findall_sound in H. destruct H as (p & e & c & Hm & ->).
    apply status_matches in Hm. destruct Hm as (Htok & -> & ->).
    exists p. split; [assumption | reflexivity].
  - intros (p & Htok & ->).
    assert (Hm : matches db s status_re p None (3 + p) (Some (p, 3 + p)))
      by (apply status_matches; auto).
    destruct (match_at_some Hm) as (e' & c' & Hat & Hm').
    apply status_matches in Hm'. destruct Hm' as (_ & -> & ->).
    apply (findall_complete (status_token_bound _ Htok)
             (status_clear Htok)) in Hat.
    exact Hat.
Qed.

End StatusFacts.

Lemma status_codes_spec (db : UnicodeDB) (log_text : option text) (x : text) :
  In x (status_codes (extract_indicators db log_text)) <->
  exists p, status_token db (or_empty log_text) p = true
            /\ x = sub (or_empty log_text) p (3 + p).
Proof.
  unfold extract_indicators, extract_indicators_with. cbn [status_codes].
  rewrite py_sorted_In, dedup_In. apply findall_status.
Qed.

(** The status token of the matcher is the standalone code: with a word
    character at either end of the token, a boundary is a place without a
    word character on its other side. *)
Lemma status_token_standalone (db : UnicodeDB) (s : text) (p : nat) :
  status_token db s p = standalone_code db s p.
Proof.
  unfold status_token, standalone_code, code_chars, standalone.
  cbn [Nat.add].
  destruct (nth_error s p) as [a|] eqn:Ea; [|reflexivity].
  destruct (nth_error s (S p)) as [b|] eqn:Eb; [|reflexivity].
  destruct (nth_error s (S (S p))) as [d|] eqn:Ed; [|reflexivity].
  destruct (between 49 53 a) eqn:Ha; [|reflexivity].
  destruct (is_digit db b) eqn:Hb; [|reflexivity].
  destruct (is_digit db d) eqn:Hd; [|reflexivity].
  cbn [andb]. unfold at_boundary.
  assert (Wp : word_at db s p = true)
    by (unfold word_at; rewrite Ea; apply one_to_five_word; assumption).
  assert (We : word_before db s (S (S (S p))) = true)
    by (cbn [word_before]; unfold word_at; rewrite Ed;
        apply is_digit_word; assumption).
  rewrite Wp, We, xorb_true_r. reflexivity.
Qed.

(** C4 (as stated, refuted): the spec calls a token word-bounded when it
    does not begin or end inside a run of letters and digits.  In code_404
    the token 404 is bounded so, after an underscore, and it is not a status
    code: for [\b] the underscore is a word character.  Nor is a token of
    three Arabic-Indic digits with the value 404, whose first character is
    not one of the ASCII digits 1 to 5. *)
Lemma status_code_after_underscore :
  (let s := str "code_404" in
   alnum_bounded_code ascii_db s 5 = true /\ sub s 5 8 = str "404"
   /\ status_codes (extract_indicators ascii_db (Some s)) = [])
  /\ (let s := [1636; 1632; 1636]%N in
      alnum_bounded_code arabic_indic_db s 0 = true
      /\ status_codes (extract_indicators arabic_indic_db (Some s)) = []).
Proof. vm_compute. repeat split. Qed.

(** C4 (amended): status_codes holds, without duplicates, exactly the
    tokens of three characters of the text that are made of one of the
    ASCII digits 1 to 5 and two decimal digits and that have no word
    character (letter, digit or underscore) directly before or after them;
    on the text of the example it holds 404 and not 999. *)
Theorem status_codes_standalone (db : UnicodeDB) :
  (forall log_text,
     let sc := status_codes (extract_indicators db log_text) in
     NoDup sc
     /\ forall x, In x sc <->
           exists p, standalone_code db (or_empty log_text) p = true
                     /\ x = sub (or_empty log_text) p (3 + p))
  /\ (let sc := status_codes (extract_indicators db
                  (Some (str "returned code 404 after 999 retries"))) in
      In (str "404") sc /\ ~ In (str "999") sc).
Proof.
  split.
  - intros log_text. cbv zeta. split.
    + unfold extract_indicators, extract_indicators_with. cbn [status_codes].
      apply py_sorted_NoDup, dedup_NoDup.
    + intros x. rewrite status_codes_spec. split.
      * intros (p & Hp & ->). exists p.
        rewrite <- status_token_standalone. auto.
      * intros (p & Hp & ->). exists p.
        rewrite status_token_standalone. auto.
  - vm_compute. split; [left; reflexivity|].
    intros [H | []]. discriminate.
Qed.

(** ** Keywords *)

Section KeywordFacts.

Variable db : UnicodeDB.
Variable s : text.

Lemma lits_icase_matches (kw : text) (rest : regex) :
  forall i c e c',
    matches db s (lits LitI kw rest) i c e c' <->
    prefix_icase db kw s i = true
    /\ matches db s rest (length kw + i) c e c'.
Proof.
  induction kw as [|a kw IH]; intros i c e c'; simpl.
  - tauto.
  - split.
    + intros H. inversion H as [| | | | r1 r2 i0 c0 j c1 k c2 H1 H2 | | | | |];
        subst.
      inversion H1; subst. apply IH in H2. destruct H2 as [Hp Hr].
      rewrite Nat.add_succ_r in Hr.
      match goal with Hn : nth_error s i = Some _ |- _ => rewrite Hn end.
      split; [apply andb_true_iff; split; assumption | assumption].
    + intros [Hp Hr].
      destruct (nth_error s i) as [x|] eqn:E; [|discriminate].
      apply andb_true_iff in Hp. destruct Hp as [Hx Hp].
      eapply M_Cat; [eapply M_LitI; eassumption|].
      apply IH. split; [assumption|].
      rewrite Nat.add_succ_r. assumption.
Qed.

Lemma kw_matches (kw : text) (p e : nat) (c : caps) :
  matches db s (kw_re kw) p None e c <->
  whole_word_at db kw s p = true /\ e = length kw + p /\ c = None.
Proof.
  unfold kw_re, whole_word_at. split.
  - intros H. inversion H as [| | | | r1 r2 i0 c0 j c1 k c2 H1 H2 | | | | |];
      subst.
    inversion H1; subst. apply lits_icase_matches in H2.
    destruct H2 as [Hp Hb]. inversion Hb; subst.
    repeat split. rewrite !andb_true_iff. auto.
  - intros (H & -> & ->). rewrite !andb_true_iff in H.
    destruct H as [[Hb Hp] He].
    eapply M_Cat; [apply M_Bnd; assumption|].
    apply lits_icase_matches. split; [assumption|].
    apply M_Bnd; assumption.
Qed.

(** The search for a keyword succeeds exactly when the keyword occurs as a
    whole word. *)
Lemma search_kw (kw : text) :
  search db (kw_re kw) s = occurs_whole_word db kw s.
Proof.
  apply eq_true_iff_eq. rewrite search_true.
  unfold occurs_whole_word, positions. rewrite existsb_exists. split.
  - intros (p & e & c & Hp & Hm). apply kw_matches in Hm.
    exists p. split; [apply in_seq; lia | apply Hm].
  - intros (p & Hin & H). apply in_seq in Hin.
    exists p, (length kw + p), None. split; [lia|].
    apply kw_matches. auto.
Qed.

End KeywordFacts.

Lemma existsb_pointwise {A : Type} (f g : A -> bool) (l : list A) :
  (forall x, f x = g x) -> existsb f l = existsb g l.
Proof.
  intros H. induction l as [|x l IH]; simpl; [reflexivity|].
  rewrite H, IH. reflexivity.
Qed.

Section StandaloneWords.

Variable db : UnicodeDB.
Hypothesis db_cased : cased_are_word db.
Variable s : text.

(** What matches a lowercase letter when case is ignored is a word
    character. *)
Lemma icase_word (a x : char) :
  ascii_lower a = true -> icase_eq db a x = true -> is_word db x = true.
Proof.
  unfold icase_eq, is_word, ascii_tolower, ascii_lower, ascii_upper,
    ascii_digit, between.
  intros Ha. apply andb_true_iff in Ha. rewrite !N.leb_le in Ha.
  destruct (N.ltb_spec x 128) as [Hx | Hx]; [|apply db_cased].
  destruct (N.leb_spec 65 x), (N.leb_spec x 90); cbn [andb];
    rewrite N.eqb_eq; intros E; rewrite ?orb_true_r; try reflexivity.
  all: subst a; destruct (N.leb_spec 97 x), (N.leb_spec x 122); try lia;
    cbn [andb]; rewrite ?orb_true_r; reflexivity.
Qed.

Lemma prefix_icase_words (kw : text) :
  forallb ascii_lower kw = true ->
  forall i, prefix_icase db kw s i = true ->
    forall j, j < length kw -> word_at db s (j + i) = true.
Proof.
  induction kw as [|a kw IH]; cbn [forallb prefix_icase length];
    intros Hl i Hp j Hj; [lia|].
  apply andb_true_iff in Hl. destruct Hl as [Ha Hl].
  destruct (nth_error s i) as [x|] eqn:Ex; [|discriminate].
  apply andb_true_iff in Hp. destruct Hp as [Hx Hp].
  destruct j as [|j].
  - unfold word_at. cbn [Nat.add]. rewrite Ex.
    eapply icase_word; eassumption.
  - replace (S j + i) with (j + S i) by lia. apply (IH Hl (S i) Hp). lia.
Qed.

(** For a keyword of lowercase letters, a match between two boundaries is a
    match without a word character on either side. *)
Lemma whole_word_standalone (kw : text) (p : nat) :
  kw <> [] -> forallb ascii_lower kw = true ->
  whole_word_at db kw s p = standalone_word_at db kw s p.
Proof.
  intros Hne Hl. unfold whole_word_at, standalone_word_at, standalone.
  destruct (prefix_icase db kw s p) eqn:Hp;
    [|rewrite andb_false_r; reflexivity].
  pose proof (prefix_icase_words kw Hl p Hp) as Hw.
  destruct kw as [|a kw]; [contradiction|]. cbn [length] in *.
  pose proof (Hw 0 ltac:(lia)) as W0. cbn [Nat.add] in W0.
  pose proof (Hw (length kw) ltac:(lia)) as Wn.
  unfold at_boundary. cbn [Nat.add word_before].
  change (char_before (is_word db) s p) with (word_before db s p).
  change (char_at (is_word db) s (S (length kw + p)))
    with (word_at db s (S (length kw + p))).
  destruct (word_before db s p), (word_at db s (S (length kw + p)));
    rewrite W0, Wn; reflexivity.
Qed.

End StandaloneWords.

Lemma keywords_lowercase :
  Forall (fun kw => kw <> [] /\ forallb ascii_lower kw = true) KEYWORDS.
Proof.
  repeat constructor; try discriminate.
Qed.

(** C5 (as stated, refuted): the spec calls a keyword a whole word when its
    two edges are not letters or digits.  In error_code=5 the keyword error
    stands so, before an underscore, and it is not reported: for [\b] the
    underscore is a word character. *)
Lemma keyword_before_underscore :
  let s := str "error_code=5" in
  alnum_bounded_word_at ascii_db (str "error") s 0 = true
  /\ keywords (extract_indicators ascii_db (Some s)) = [].
Proof. vm_compute. split; reflexivity. Qed.

(** C5 (amended): keywords holds, in the order of the fixed list error,
    failed, denied, timeout, exception, forbidden, unauthorized, exactly the
    literals of that list that occur in the text, case being ignored, with
    no word character (letter, digit or underscore) directly before or
    after the occurrence, in the lowercase spelling of the list; the text of
    the example gives error and denied. *)
Theorem keywords_standalone (db : UnicodeDB) :
  cased_are_word db ->
  KEYWORDS = [str "error"; str "failed"; str "denied"; str "timeout";
              str "exception"; str "forbidden"; str "unauthorized"]
  /\ (forall log_text,
        keywords (extract_indicators db log_text)
        = filter (fun kw => occurs_standalone db kw (or_empty log_text))
            KEYWORDS)
  /\ keywords (extract_indicators db (Some (str "ERROR: Access Denied")))
     = [str "error"; str "denied"].
Proof.
  intros Hdb. split; [reflexivity|]. split.
  - intros log_text. unfold extract_indicators, extract_indicators_with.
    cbn [keywords]. apply filter_ext_in. intros kw Hkw.
    rewrite search_kw. unfold occurs_whole_word, occurs_standalone.
    apply existsb_pointwise. intros p.
    pose proof keywords_lowercase as Hall. rewrite Forall_forall in Hall.
    destruct (Hall kw Hkw) as [Hne Hl].
    apply whole_word_standalone; assumption.
  - vm_compute. reflexivity.
Qed.

(** The database without characters beyond ASCII, where nothing is to be
    checked. *)
Lemma keywords_standalone_witness :
  KEYWORDS = [str "error"; str "failed"; str "denied"; str "timeout";
              str "exception"; str "forbidden"; str "unauthorized"]
  /\ (forall log_text,
        keywords (extract_indicators ascii_db log_text)
        = filter (fun kw => occurs_standalone ascii_db kw (or_empty log_text))
            KEYWORDS)
  /\ keywords (extract_indicators ascii_db
                 (Some (str "ERROR: Access Denied")))
     = [str "error"; str "denied"].
Proof.
  apply keywords_standalone.
  intros a x H. simpl in H. discriminate.
Defined.

(** ** Substrings and matches of a class *)

Lemma sub_length (s : text) (p e : nat) :
  e <= length s -> length (sub s p e) = e - p.
Proof.
  intros H. unfold sub. rewrite length_firstn, length_skipn. lia.
Qed.

Lemma sub_nth (s : text) (p e x : nat) :
  x < e - p -> nth_error (sub s p e) x = nth_error s (p + x).
Proof.
  intros H. unfold sub. rewrite nth_error_firstn, nth_error_skipn.
  apply Nat.ltb_lt in H. rewrite H. reflexivity.
Qed.

(** Two equal substrings end with the same character. *)
Lemma sub_eq_last (s : text) (p e p' e' : nat) :
  p < e <= length s -> p' < e' <= length s ->
  sub s p e = sub s p' e' ->
  nth_error s (e - 1) = nth_error s (e' - 1).
Proof.
  intros H H' Heq.
  assert (Hlen : e - p = e' - p').
  { rewrite <- (@sub_length s p e), <- (@sub_length s p' e') by lia.
    rewrite Heq. reflexivity. }
  assert (Hn : nth_error (sub s p e) (e - p - 1)
             = nth_error (sub s p' e') (e - p - 1)) by (rewrite Heq; reflexivity).
  rewrite !sub_nth in Hn by lia.
  replace (p + (e - p - 1)) with (e - 1) in Hn by lia.
  replace (p' + (e - p - 1)) with (e' - 1) in Hn by lia.
  exact Hn.
Qed.

Section ClassFacts.

Variable db : UnicodeDB.
Variable s : text.

Lemma matches_Cat_inv (r1 r2 : regex) (i k : nat) (c c2 : caps) :
  matches db s (Cat r1 r2) i c k c2 ->
  exists j c1, matches db s r1 i c j c1 /\ matches db s r2 j c1 k c2.
Proof. intros H. inversion H; subst. eauto. Qed.

Lemma matches_Bnd_inv (i j : nat) (c c' : caps) :
  matches db s Bnd i c j c' ->
  j = i /\ c' = c /\ at_boundary db s i = true.
Proof. intros H. inversion H; subst. auto. Qed.

Lemma matches_Cls_inv (neg : bool) (items : list citem) (i j : nat)
    (c c' : caps) :
  matches db s (Cls neg items) i c j c' ->
  j = S i /\ c' = c
  /\ exists x, nth_error s i = Some x /\ cls_match db neg items x = true.
Proof. intros H. inversion H; subst. eauto. Qed.

(** A repetition of a class matches a run of characters of the class. *)
Lemma rep_cls_matches (neg : bool) (items : list citem) (lo : nat)
    (hi : option nat) (i j : nat) (c c' : caps) :
  matches db s (Rep lo hi (Cls neg items)) i c j c' ->
  c' = c /\ lo + i <= j
  /\ forall x, i <= x < j ->
       exists ch, nth_error s x = Some ch
                  /\ cls_match db neg items ch = true.
Proof.
  intros H. remember (Rep lo hi (Cls neg items)) as r eqn:Er.
  revert lo hi Er.
  induction H as [| | | | | | | hi0 r0 i c
                 | lo0 hi0 r0 i c j c' k c'' Ehi Hb _ Hij Hr IH |];
    intros lo hi Er; try discriminate.
  - injection Er as <- <- ->. split; [reflexivity|].
    split; [lia|]. intros x Hx. lia.
  - injection Er as <- <- ->.
    apply matches_Cls_inv in Hb. destruct Hb as (-> & -> & ch & Hch & Hcls).
    destruct (IH _ _ eq_refl) as (-> & Hlen & Hall).
    split; [reflexivity|]. split; [lia|].
    intros x Hx. destruct (Nat.eq_dec x i) as [-> | Hne].
    + exists ch. auto.
    + apply Hall. lia.
Qed.

Lemma rep_cls_last (neg : bool) (items : list citem) (lo : nat)
    (hi : option nat) (i j : nat) (c c' : caps) :
  matches db s (Rep (S lo) hi (Cls neg items)) i c j c' ->
  i < j <= length s
  /\ exists ch, nth_error s (j - 1) = Some ch
                /\ cls_match db neg items ch = true.
Proof.
  intros H. apply rep_cls_matches in H. destruct H as (_ & Hlen & Hall).
  destruct (Hall (j - 1)) as (ch & Hch & Hcls); [lia|].
  assert (j - 1 < length s) by (apply nth_error_Some; congruence).
  split; [lia|]. exists ch. auto.
Qed.

Lemma letter_not_digit (ch : char) :
  cls_match db false [rng "a" "z"; rng "A" "Z"] ch = true ->
  is_digit db ch = false.
Proof.
  unfold cls_match, rng, cp. simpl. unfold between, is_digit, ascii_digit, between.
  rewrite orb_false_r, orb_true_iff, !andb_true_iff, !N.leb_le.
  intros H. destruct (N.ltb_spec ch 128); [|lia].
  apply andb_false_iff. rewrite !N.leb_gt. lia.
Qed.

(** A match of the domain pattern ends with a letter. *)
Lemma domain_match_last (p e : nat) (c : caps) :
  matches db s domain_re p None e c ->
  p < e <= length s
  /\ exists ch, nth_error s (e - 1) = Some ch /\ is_digit db ch = false.
Proof.
  unfold domain_re. intros H.
  apply matches_Cat_inv in H. destruct H as (j0 & c0 & H0 & H).
  apply matches_Bnd_inv in H0. destruct H0 as (-> & -> & _).
  apply matches_Cat_inv in H. destruct H as (j1 & c1 & H1 & H).
  apply matches_Cat_inv in H. destruct H as (j2 & c2 & H2 & H).
  apply matches_Bnd_inv in H. destruct H as (-> & -> & _).
  apply matches_bounds in H1. apply rep_cls_last in H2.
  destruct H2 as (Hj & ch & Hch & Hcls).
  split; [lia|]. exists ch. split; [assumption|].
  apply letter_not_digit. assumption.
Qed.

(** A match of the IP pattern ends with a digit. *)
Lemma ip_match_last (p e : nat) (c : caps) :
  matches db s ip_re p None e c ->
  p < e <= length s
  /\ exists ch, nth_error s (e - 1) = Some ch /\ is_digit db ch = true.
Proof.
  unfold ip_re. intros H.
  apply matches_Cat_inv in H. destruct H as (j0 & c0 & H0 & H).
  apply matches_Bnd_inv in H0. destruct H0 as (-> & -> & _).
  apply matches_Cat_inv in H. destruct H as (j1 & c1 & H1 & H).
  apply matches_Cat_inv in H. destruct H as (j2 & c2 & H2 & H).
  apply matches_Bnd_inv in H. destruct H as (-> & -> & _).
  apply matches_bounds in H1. apply rep_cls_last in H2.
  destruct H2 as (Hj & ch & Hch & Hcls).
  split; [lia|]. exists ch. split; [assumption|].
  unfold cls_match in Hcls. simpl in Hcls.
  rewrite orb_false_r in Hcls. assumption.
Qed.

(** No match of the domain pattern is a match of the IP pattern. *)
Lemma domain_not_ip (d : text) :
  In d (findall db domain_re s) -> ~ In d (findall db ip_re s).
Proof.
  intros Hd Hi.
  apply findall_sound in Hd. destruct Hd as (p & e & c & Hm & ->).
  apply findall_sound in Hi. destruct Hi as (p' & e' & c' & Hm' & Heq).
  apply domain_match_last in Hm. destruct Hm as (Hpe & ch & Hch & Hnd).
  apply ip_match_last in Hm'. destruct Hm' as (Hpe' & ch' & Hch' & Hdg).
  change (item domain_re s p e c) with (sub s p e) in Heq.
  change (item ip_re s p' e' c') with (sub s p' e') in Heq.
  apply sub_eq_last in Heq; [|assumption|assumption].
  rewrite Hch, Hch' in Heq. injection Heq as ->. congruence.
Qed.

End ClassFacts.

(** C9: no match of the domain pattern equals a match of the IP pattern, so
    the domains of the report are the same list with and without the
    exclusion of the ips. *)
Theorem domain_filter_vacuous (db : UnicodeDB) (log_text : option text) :
  (forall d, In d (findall db domain_re (or_empty log_text)) ->
             ~ In d (findall db ip_re (or_empty log_text)))
  /\ domains (extract_indicators db log_text)
     = domains_unfiltered db log_text.
Proof.
  split; [apply domain_not_ip|].
  unfold extract_indicators, extract_indicators_with, domains_unfiltered.
  cbn [domains]. f_equal. f_equal.
  apply forallb_filter_id. apply forallb_forall. intros d Hd.
  apply negb_true_iff, mem_not_In.
  rewrite py_sorted_In, dedup_In. apply domain_not_ip. assumption.
Qed.

(** ** Status codes as strings and as numbers *)

Lemma sub_three (s : text) (p : nat) (a b c : char) :
  nth_error s p = Some a -> nth_error s (S p) = Some b ->
  nth_error s (S (S p)) = Some c ->
  sub s p (3 + p) = [a; b; c].
Proof.
  intros Ha Hb Hc. unfold sub. replace (3 + p - p) with 3 by lia.
  assert (H0 : nth_error (skipn p s) 0 = Some a)
    by (rewrite nth_error_skipn, Nat.add_0_r; assumption).
  assert (H1 : nth_error (skipn p s) 1 = Some b)
    by (rewrite nth_error_skipn, Nat.add_1_r; assumption).
  assert (H2 : nth_error (skipn p s) 2 = Some c).
  { rewrite nth_error_skipn. replace (p + 2) with (S (S p)) by lia.
    assumption. }
  destruct (skipn p s) as [|x0 [|x1 [|x2 l]]]; try discriminate.
  simpl in *. congruence.
Qed.

Lemma status_token_shape (db : UnicodeDB) (s : text) (p : nat) :
  status_token db s p = true -> status_shape db (sub s p (3 + p)).
Proof.
  unfold status_token. cbn [Nat.add].
  destruct (nth_error s p) as [a|] eqn:Ea; [|discriminate].
  destruct (nth_error s (S p)) as [b|] eqn:Eb; [|discriminate].
  destruct (nth_error s (S (S p))) as [d|] eqn:Ed; [|discriminate].
  intros H.
  apply andb_true_iff in H; destruct H as [H B2].
  apply andb_true_iff in H; destruct H as [H B1].
  apply andb_true_iff in H; destruct H as [H D2].
  apply andb_true_iff in H; destruct H as [H D1].
  exists a, b, d. split; [|auto].
  apply sub_three; assumption.
Qed.

Lemma ascii_digit_value (db : UnicodeDB) (c : char) :
  ascii_digit c = true ->
  (48 <= c <= 57)%N /\ digit_value db c = (c - 48)%N.
Proof.
  unfold ascii_digit, between, digit_value.
  rewrite andb_true_iff, !N.leb_le. intros H. split; [assumption|].
  destruct (N.ltb_spec c 128); [reflexivity | lia].
Qed.

(** On strings of three ASCII digits the order of strings is the order of
    numbers. *)
Lemma three_digits_order (db : UnicodeDB) (a b c a' b' c' : char) :
  ascii_digits [a; b; c] = true -> ascii_digits [a'; b'; c'] = true ->
  (text_lt [a; b; c] [a'; b'; c']
   <-> (int_of db [a; b; c] < int_of db [a'; b'; c'])%N).
Proof.
  unfold ascii_digits. cbn [forallb]. rewrite !andb_true_iff.
  intros (Ha & Hb & Hc & _) (Ha' & Hb' & Hc' & _).
  apply (ascii_digit_value db) in Ha, Hb, Hc, Ha', Hb', Hc'.
  destruct Ha as [Ra Va], Hb as [Rb Vb], Hc as [Rc Vc].
  destruct Ha' as [Ra' Va'], Hb' as [Rb' Vb'], Hc' as [Rc' Vc'].
  unfold int_of. cbn [fold_left]. rewrite Va, Vb, Vc, Va', Vb', Vc'.
  unfold text_lt. cbn [text_leb].
  destruct (N.ltb_spec a a'), (N.ltb_spec a' a), (N.ltb_spec b b'),
    (N.ltb_spec b' b), (N.ltb_spec c c'), (N.ltb_spec c' c);
    try lia;
    (split; [intros [Hle Hne]; try discriminate; try lia;
             assert (a = a') by lia; assert (b = b') by lia;
             assert (c = c') by lia; subst; exfalso; apply Hne; reflexivity
            | intros Hlt; split; [try reflexivity; lia
                                 | intros [= -> -> ->]; lia]]).
Qed.

(** C10 (as stated, refuted): [\d] also matches the decimal digits beyond
    ASCII.  With the Arabic-Indic digits two and three, the text
    [199 1??] gives the status codes 199 and 1??, the second of which reads
    123: it comes after 199 as a string and before it as a number. *)
Lemma status_order_not_numeric :
  let sc := status_codes (extract_indicators arabic_indic_db
              (Some [49; 57; 57; 32; 49; 1634; 1635]%N)) in
  sc = [[49; 57; 57]; [49; 1634; 1635]]%N
  /\ text_lt [49; 57; 57]%N [49; 1634; 1635]%N
  /\ (int_of arabic_indic_db [49; 1634; 1635]
      < int_of arabic_indic_db [49; 57; 57])%N.
Proof.
  vm_compute. split; [reflexivity|]. split; [|reflexivity].
  split; [reflexivity | discriminate].
Qed.

(** C10 (amended): every element of status_codes is a string of three
    characters, the first from 1 to 5 and the other two decimal digits
    (whatever [\d] matches); for the elements made of ASCII digits the
    order of strings is the order of the numbers they denote. *)
Theorem status_codes_shape (db : UnicodeDB) (log_text : option text)
    (x y : text) :
  In x (status_codes (extract_indicators db log_text)) ->
  In y (status_codes (extract_indicators db log_text)) ->
  status_shape db x
  /\ (ascii_digits x = true -> ascii_digits y = true ->
      (text_lt x y <-> (int_of db x < int_of db y)%N)).
Proof.
  intros Hx Hy.
  apply status_codes_spec in Hx, Hy.
  destruct Hx as (p & Hp & ->), Hy as (q & Hq & ->).
  apply status_token_shape in Hp, Hq.
  split; [assumption|].
  destruct Hp as (a & b & c & -> & _), Hq as (a' & b' & c' & -> & _).
  apply three_digits_order.
Qed.

(** The codes 200 and 404 of a sample text. *)
Lemma status_codes_shape_witness :
  let r := extract_indicators ascii_db (Some (str "200 then 404")) in
  status_shape ascii_db (str "200")
  /\ (ascii_digits (str "200") = true -> ascii_digits (str "404") = true ->
      (text_lt (str "200") (str "404")
       <-> (int_of ascii_db (str "200") < int_of ascii_db (str "404"))%N)).
Proof.
  apply (@status_codes_shape ascii_db (Some (str "200 then 404"))).
  - vm_compute. left; reflexivity.
  - vm_compute. right; left; reflexivity.
Defined.

(** ** File paths *)

Section PathFacts.

Variable db : UnicodeDB.
Variable s : text.

Lemma matches_chars (P : char -> Prop) (r : regex) (i j : nat) (c c' : caps) :
  matches db s r i c j c' -> regex_chars db P r ->
  forall x, i <= x < j -> exists ch, nth_error s x = Some ch /\ P ch.
Proof.
  induction 1 as [a i c E | a y i c E Ey | neg items y i c E Ey | i c E
                 | r1 r2 i c j c' j' c'' H1 IH1 H2 IH2
                 | r1 r2 i c j c' _ IH | r1 r2 i c j c' _ IH
                 | hi r i c
                 | lo hi r i c j c' j' c'' Ehi H1 IH1 Hij H2 IH2
                 | r i c j c' _ IH]; cbn [regex_chars]; intros HP x Hx;
    try lia.
  - assert (x = i) by lia. subst. eauto.
  - assert (x = i) by lia. subst. eauto.
  - assert (x = i) by lia. subst. eauto.
  - destruct HP as [HP1 HP2].
    destruct (le_lt_dec j x); [apply IH2 | apply IH1]; auto; lia.
  - apply IH; tauto.
  - apply IH; tauto.
  - destruct (le_lt_dec j x); [apply IH2 | apply IH1]; auto; lia.
  - apply IH; auto.
Qed.



Lemma forallb_nth (P : char -> bool) (l : text) (x : nat) :
  forallb P l = true -> x < length l ->
  exists ch, nth_error l x = Some ch /\ P ch = true.
Proof.
  intros H Hx. destruct (nth_error l x) as [ch|] eqn:E.
  - exists ch. split; [reflexivity|].
    rewrite forallb_forall in H. apply H. eapply nth_error_In; eassumption.
  - apply nth_error_None in E. lia.
Qed.

Lemma sub_eq_nth (tok : text) (p x : nat) :
  sub s p (length tok + p) = tok -> x < length tok ->
  nth_error s (p + x) = nth_error tok x.
Proof.
  intros H Hx.
  transitivity (nth_error (sub s p (length tok + p)) x);
    [symmetry; apply sub_nth; lia | rewrite H; reflexivity].
Qed.


Lemma token_at_spec (delim : char -> bool) (tok : text) (p : nat) :
  token_at delim tok s p = true ->
  sub s p (length tok + p) = tok
  /\ delim_before delim s p = true
  /\ delim_at delim s (length tok + p) = true.
Proof.
  unfold token_at. rewrite !andb_true_iff, text_eqb_eq. tauto.
Qed.

Lemma token_at_bound (delim : char -> bool) (tok : text) (p : nat) :
  tok <> [] -> sub s p (length tok + p) = tok -> p < length s.
Proof.
  intros Hne Hsub. destruct tok as [|a tok]; [contradiction|].
  assert (H : nth_error s (p + 0) = Some a)
    by (rewrite (@sub_eq_nth _ p 0 Hsub); [reflexivity | simpl; lia]).
  rewrite Nat.add_0_r in H. apply nth_error_Some. congruence.
Qed.

(** A position that comes right after a delimiter is not covered by an
    earlier match of a pattern that cannot consume the delimiter. *)
Lemma delim_clear (delim : char -> bool) (r : regex) (p : nat) :
  regex_chars db (fun ch => delim ch = false) r ->
  delim_before delim s p = true ->
  clear_before db r s p.
Proof.
  intros Hr Hd q e c Hq Hm.
  destruct (le_lt_dec e p) as [Hle | Hlt]; [assumption|]. exfalso.
  destruct p as [|p]; [lia|]. simpl in Hd.
  destruct (@matches_chars _ _ _ _ _ _ Hm Hr p) as (ch & Hch & Hnd); [lia|].
  rewrite Hch in Hd. congruence.
Qed.









Lemma unix_chars :
  regex_chars db (fun ch => is_blank ch = false) unix_path_re.
Proof.
  unfold unix_path_re, plus, chr. cbn [regex_chars].
  split; [reflexivity|]. intros x. unfold cls_match, is_blank.
  cbn [existsb citem_match].
  destruct (x =? 32)%N, (x =? 10)%N, (x =? 9)%N, (x =? 13)%N;
    simpl; congruence.
Qed.

Lemma win_chars :
  regex_chars db (fun ch => is_break ch = false) win_path_re.
Proof.
  unfold win_path_re, plus, chr. cbn [regex_chars].
  repeat split; try reflexivity.
  - intros x. unfold cls_match, rng, cp. cbn [existsb citem_match].
    unfold between, is_break.
    rewrite orb_false_r. cbn [xorb N_of_ascii N_of_digits].
    rewrite orb_true_iff, !andb_true_iff, !N.leb_le. intros H.
    rewrite !orb_false_iff, !N.eqb_neq. simpl in H. lia.
  - intros x. unfold cls_match, is_break. cbn [existsb citem_match].
    destruct (x =? 10)%N, (x =? 13)%N, (x =? 9)%N; simpl; congruence.
Qed.


Lemma blank_not_word (ch : char) : is_blank ch = true -> is_word db ch = false.
Proof.
  unfold is_blank. rewrite !orb_true_iff, !N.eqb_eq.
  intros [[[-> | ->] | ->] | ->]; reflexivity.
Qed.

Lemma blank_before_not_word (p : nat) :
  delim_before is_blank s p = true -> word_before db s p = false.
Proof.
  destruct p as [|p]; [reflexivity|]. simpl. unfold word_at.
  destruct (nth_error s p) as [ch|]; [|reflexivity].
  apply blank_not_word.
Qed.






End PathFacts.




(** * Further properties of the extraction *)

(** ** Matches as strings *)

Lemma sub_empty (s : text) (i : nat) : sub s i i = [].
Proof. unfold sub. rewrite Nat.sub_diag. reflexivity. Qed.

Lemma sub_one (s : text) (i : nat) (a : char) :
  nth_error s i = Some a -> sub s i (S i) = [a].
Proof.
  intros H. unfold sub. replace (S i - i) with 1 by lia.
  assert (H0 : nth_error (skipn i s) 0 = Some a)
    by (rewrite nth_error_skipn, Nat.add_0_r; assumption).
  destruct (skipn i s); [discriminate|]. simpl in *. congruence.
Qed.

Lemma firstn_plus {A : Type} (a b : nat) : forall l : list A,
  firstn (a + b) l = firstn a l ++ firstn b (skipn a l).
Proof.
  induction a as [|a IH]; intros l; [reflexivity|].
  destruct l as [|x l]; simpl.
  - rewrite firstn_nil. reflexivity.
  - rewrite IH. reflexivity.
Qed.

Lemma sub_split (s : text) (i j k : nat) :
  i <= j <= k -> sub s i k = sub s i j ++ sub s j k.
Proof.
  intros H. unfold sub.
  replace (k - i) with ((j - i) + (k - j)) by lia.
  rewrite firstn_plus. f_equal. rewrite skipn_skipn.
  replace (j - i + i) with j by lia. reflexivity.
Qed.

Lemma sub_substring (s : text) (i j : nat) :
  i <= j <= length s -> substring_of (sub s i j) s.
Proof.
  intros H. exists (firstn i s), (skipn j s).
  rewrite <- (firstn_skipn i s) at 1. f_equal.
  rewrite <- (firstn_skipn (j - i) (skipn i s)) at 1.
  unfold sub. f_equal. rewrite skipn_skipn.
  replace (j - i + i) with j by lia. reflexivity.
Qed.

Section LangFacts.

Variable db : UnicodeDB.
Variable s : text.

(** What a match consumes is a string of the language of the pattern. *)
Lemma matches_lang (r : regex) (i j : nat) (c c' : caps) :
  matches db s r i c j c' -> lang db r (sub s i j).
Proof.
  induction 1 as [a i c E | a x i c E Ex | neg items x i c E Ex | i c E
                 | r1 r2 i c j c' j' c'' H1 IH1 H2 IH2
                 | r1 r2 i c j c' _ IH | r1 r2 i c j c' _ IH
                 | hi r i c
                 | lo hi r i c j c' j' c'' Ehi H1 IH1 Hij H2 IH2
                 | r i c j c' _ IH].
  - rewrite (sub_one _ _ E). constructor.
  - rewrite (sub_one _ _ E). constructor. assumption.
  - rewrite (sub_one _ _ E). constructor. assumption.
  - rewrite sub_empty. constructor.
  - apply matches_bounds in H1, H2.
    rewrite (@sub_split s i j j') by lia. constructor; assumption.
  - apply L_AltL. assumption.
  - apply L_AltR. assumption.
  - rewrite sub_empty. constructor.
  - pose proof (matches_bounds H1) as B1. pose proof (matches_bounds H2) as B2.
    rewrite (@sub_split s i j j') by lia.
    apply L_RepMore; try assumption.
    intros E. apply (f_equal (@length char)) in E.
    rewrite sub_length in E by lia. simpl in E. lia.
  - constructor. assumption.
Qed.

Lemma matches_min_len (r : regex) (i j : nat) (c c' : caps) :
  matches db s r i c j c' -> i + min_len r <= j.
Proof.
  induction 1; cbn [min_len] in *; try lia.
  destruct lo; cbn [pred] in *; lia.
Qed.

End LangFacts.

Section ReportedFacts.

Variable db : UnicodeDB.
Variable s : text.

(** The items of a pattern without group are the matched substrings. *)
Lemma findall_sub (r : regex) (x : text) :
  has_group r = false -> In x (findall db r s) ->
  exists p e c, matches db s r p None e c /\ x = sub s p e.
Proof.
  intros Hg H. apply findall_sound in H.
  destruct H as (p & e & c & Hm & ->). exists p, e, c.
  split; [assumption|]. unfold item. rewrite Hg. reflexivity.
Qed.

Lemma matches_span (r : regex) (p e : nat) (c c' : caps) :
  0 < min_len r -> matches db s r p c e c' ->
  p + min_len r <= e /\ e <= length s.
Proof.
  intros Hpos Hm. pose proof (matches_min_len Hm) as Hlen.
  apply matches_bounds in Hm. split; lia.
Qed.

(** A match of a pattern that consumes a character is a non-empty part of
    the text. *)
Lemma findall_substring (r : regex) (x : text) :
  has_group r = false -> 0 < min_len r -> In x (findall db r s) ->
  min_len r <= length x /\ substring_of x s.
Proof.
  intros Hg Hpos H. apply findall_sub in H; [|assumption].
  destruct H as (p & e & c & Hm & ->).
  apply matches_span in Hm; [|assumption].
  rewrite sub_length by lia. split; [lia|].
  apply sub_substring. lia.
Qed.

Lemma status_substring (x : text) :
  In x (findall db status_re s) -> length x = 3 /\ substring_of x s.
Proof.
  intros H. apply findall_status in H. destruct H as (p & Htok & ->).
  assert (Hp : 3 + p <= length s).
  { unfold status_token in Htok.
    destruct (nth_error s p); [|discriminate].
    destruct (nth_error s (S p)); [|discriminate].
    destruct (nth_error s (S (S p))) eqn:E; [|discriminate].
    assert (S (S p) < length s) by (apply nth_error_Some; congruence). lia. }
  split; [rewrite sub_length; lia | apply sub_substring; lia].
Qed.

(** Matches do not overlap, so a pattern whose matches have [min_len r]
    characters or more has at most [length s / min_len r] of them. *)
Lemma scan_count (r : regex) :
  0 < min_len r ->
  forall n a next, a + n <= S (length s) ->
    min_len r * length (scan db r s (seq a n) next)
    <= length s - Nat.max a next.
Proof.
  intros Hpos. induction n as [|n IH]; intros a next Ha; simpl; [lia|].
  destruct (Nat.ltb_spec a next) as [Hlt | Hge].
  - specialize (IH (S a) next ltac:(lia)). lia.
  - destruct (match_at db r s a false) as [[e c]|] eqn:E.
    + apply match_at_sound in E. destruct E as [Hm _].
      apply matches_span in Hm; [|assumption].
      destruct (Nat.ltb_spec a e) as [Hae | Hae]; [|lia].
      specialize (IH (S a) e ltac:(lia)). cbn [length].
      rewrite Nat.mul_succ_r. lia.
    + specialize (IH (S a) next ltac:(lia)). lia.
Qed.

Lemma findall_count (r : regex) :
  0 < min_len r -> min_len r * length (findall db r s) <= length s.
Proof.
  intros Hpos. unfold findall, positions.
  pose proof (@scan_count r Hpos (S (length s)) 0 0 ltac:(lia)). lia.
Qed.

End ReportedFacts.

Lemma dedup_length (l : list text) : length (dedup l) <= length l.
Proof.
  induction l as [|x l IH]; simpl; [lia|].
  destruct (mem x l); simpl; lia.
Qed.

Lemma filter_length_le {A : Type} (f : A -> bool) (l : list A) :
  length (filter f l) <= length l.
Proof.
  induction l as [|x l IH]; simpl; [lia|].
  destruct (f x); simpl; lia.
Qed.

Lemma sorted_set_length (l : list text) :
  length (py_sorted (dedup l)) <= length l.
Proof.
  rewrite <- (Permutation_length (py_sorted_perm (dedup l))).
  apply dedup_length.
Qed.

(** X1: every string of the lists ips, domains, urls, file_paths and
    status_codes is a non-empty contiguous part of the input text. *)
Theorem indicators_are_substrings (db : UnicodeDB) (log_text : option text)
    (x : text) :
  let r := extract_indicators db log_text in
  In x (ips r ++ domains r ++ urls r ++ file_paths r ++ status_codes r) ->
  x <> [] /\ substring_of x (or_empty log_text).
Proof.
  cbv zeta. unfold extract_indicators, extract_indicators_with.
  cbn [ips domains urls file_paths status_codes].
  rewrite !in_app_iff, !py_sorted_In, !dedup_In, filter_In, in_app_iff.
  assert (Hne : forall n, 0 < n -> n <= length x -> x <> [])
    by (intros n Hn Hx ->; simpl in Hx; lia).
  intros [H | [[H _] | [H | [[H | H] | H]]]].
  - apply findall_substring in H; [|reflexivity | cbv; lia].
    destruct H as [Hl Hs]. split; [eapply Hne; [|exact Hl]; cbv; lia | exact Hs].
  - apply findall_substring in H; [|reflexivity | cbv; lia].
    destruct H as [Hl Hs]. split; [eapply Hne; [|exact Hl]; cbv; lia | exact Hs].
  - apply findall_substring in H; [|reflexivity | cbv; lia].
    destruct H as [Hl Hs]. split; [eapply Hne; [|exact Hl]; cbv; lia | exact Hs].
  - apply findall_substring in H; [|reflexivity | cbv; lia].
    destruct H as [Hl Hs]. split; [eapply Hne; [|exact Hl]; cbv; lia | exact Hs].
  - apply findall_substring in H; [|reflexivity | cbv; lia].
    destruct H as [Hl Hs]. split; [eapply Hne; [|exact Hl]; cbv; lia | exact Hs].
  - apply status_substring in H. destruct H as [Hl Hs].
    split; [apply (Hne 3); lia | exact Hs].
Qed.

(** The path /var/log/app.log of a sample line. *)
Lemma indicators_are_substrings_witness :
  str "/var/log/app.log" <> []
  /\ substring_of (str "/var/log/app.log")
       (or_empty (Some (str "tail /var/log/app.log now"))).
Proof.
  apply (@indicators_are_substrings ascii_db
           (Some (str "tail /var/log/app.log now"))).
  vm_compute. right. left. reflexivity.
Defined.

(** X2: matches of one pattern do not overlap and have a least length, which
    bounds each list by the length of the text: 7 characters for an ip, 4
    for a domain, 8 for a url, 3 for a status code, and 2 and 4 for the two
    kinds of file paths. *)
Theorem counts_bounded (db : UnicodeDB) (log_text : option text) :
  let r := extract_indicators db log_text in
  let n := length (or_empty log_text) in
  7 * length (ips r) <= n /\ 4 * length (domains r) <= n
  /\ 8 * length (urls r) <= n /\ 4 * length (file_paths r) <= 3 * n
  /\ 3 * length (status_codes r) <= n.
Proof.
  cbv zeta. unfold extract_indicators, extract_indicators_with.
  cbn [ips domains urls file_paths status_codes].
  set (s := or_empty log_text).
  pose proof (@findall_count db s ip_re ltac:(cbv; lia)) as Hip.
  pose proof (@findall_count db s domain_re ltac:(cbv; lia)) as Hdom.
  pose proof (@findall_count db s url_re ltac:(cbv; lia)) as Hurl.
  pose proof (@findall_count db s unix_path_re ltac:(cbv; lia)) as Hunix.
  pose proof (@findall_count db s win_path_re ltac:(cbv; lia)) as Hwin.
  pose proof (@findall_count db s status_re ltac:(cbv; lia)) as Hst.
  change (min_len ip_re) with 7 in Hip.
  change (min_len domain_re) with 4 in Hdom.
  change (min_len url_re) with 8 in Hurl.
  change (min_len unix_path_re) with 2 in Hunix.
  change (min_len win_path_re) with 4 in Hwin.
  change (min_len status_re) with 3 in Hst.
  pose proof (sorted_set_length (findall db ip_re s)).
  pose proof (sorted_set_length
    (filter (fun d => negb (mem d (py_sorted (dedup (findall db ip_re s)))))
       (findall db domain_re s))).
  pose proof (filter_length_le
    (fun d => negb (mem d (py_sorted (dedup (findall db ip_re s)))))
    (findall db domain_re s)).
  pose proof (sorted_set_length (findall db url_re s)).
  pose proof (sorted_set_length
    (findall db unix_path_re s ++ findall db win_path_re s)) as Hfp.
  rewrite length_app in Hfp.
  pose proof (sorted_set_length (findall db status_re s)).
  repeat split; lia.
Qed.

(** ** The shape of the indicators *)

Section ShapeFacts.

Variable db : UnicodeDB.

Lemma lang_chars (P : char -> Prop) (r : regex) (x : text) :
  lang db r x -> regex_chars db P r -> Forall P x.
Proof.
  induction 1; cbn [regex_chars]; intros HP;
    try (constructor; [auto | constructor]);
    try (apply Forall_app; split); try constructor; try tauto.
  all: auto.
Qed.

Lemma lang_chars_b (f : char -> bool) (r : regex) (x : text) :
  lang db r x -> regex_chars db (fun ch => f ch = true) r ->
  forallb f x = true.
Proof.
  intros H Hr. apply forallb_forall. apply Forall_forall.
  eapply lang_chars; eassumption.
Qed.

(** A repetition of a class is a run of characters of the class. *)
Lemma lang_rep_cls (neg : bool) (items : list citem) (lo : nat)
    (hi : option nat) (g : text) :
  lang db (Rep lo hi (Cls neg items)) g ->
  lo <= length g /\ (forall h, hi = Some h -> length g <= h)
  /\ forallb (cls_match db neg items) g = true.
Proof.
  intros H. remember (Rep lo hi (Cls neg items)) as r eqn:Er.
  revert lo hi Er.
  induction H as [| | | | | | | hi0 r0
                 | lo0 hi0 r0 u v Ehi Hu _ Hne Hv IH |];
    intros lo hi Er; try discriminate.
  - injection Er as <- <- ->. simpl. split; [lia|]. split; [intros; lia | reflexivity].
  - injection Er as <- <- ->. inversion Hu; subst.
    destruct (IH _ _ eq_refl) as (Hlo & Hhi & Hall).
    rewrite length_app. cbn [length].
    split; [lia|]. split.
    + intros h ->. destruct h as [|h]; [discriminate|].
      specialize (Hhi h eq_refl). lia.
    + cbn [app forallb]. rewrite Hall, andb_true_r. assumption.
Qed.

End ShapeFacts.

Ltac inv_lang :=
  repeat match goal with
  | H : lang _ (Cat _ _) _ |- _ => inversion H; clear H; subst
  | H : lang _ (Alt _ _) _ |- _ => inversion H; clear H; subst
  | H : lang _ (Grp _) _ |- _ => inversion H; clear H; subst
  | H : lang _ (Lit _) _ |- _ => inversion H; clear H; subst
  | H : lang _ Bnd _ |- _ => inversion H; clear H; subst
  | H : lang _ (Cls _ _) _ |- _ => inversion H; clear H; subst
  | H : lang _ (Rep _ _ (Cls _ _)) _ |- _ => apply lang_rep_cls in H
  | H : lang _ (Rep _ (Some _) _) _ |- _ =>
      inversion H; clear H; subst; cbn [pred hi_pred option_map] in *;
      try discriminate
  end.

Section ShapeOfMatches.

Variable db : UnicodeDB.

Lemma forallb_digit (g : text) :
  forallb (cls_match db false [CDigit]) g = true ->
  forallb (is_digit db) g = true.
Proof.
  induction g as [|x g IH]; cbn [forallb]; [reflexivity|].
  rewrite cls_digit. intros H. apply andb_true_iff in H.
  destruct H as [-> H]. apply IH. exact H.
Qed.

Lemma ip_lang_shape (x : text) : lang db ip_re x -> dotted_quad db x.
Proof.
  unfold ip_re, digit, chr. intros H. inv_lang.
  repeat match goal with
  | H : _ /\ _ |- _ => destruct H
  end.
  match goal with
  | |- dotted_quad _ ([] ++ ((?a ++ _) ++ (?b ++ _) ++ (?c ++ _) ++ [])
                         ++ ?d ++ []) =>
      exists a, b, c, d
  end.
  split; [rewrite ?app_nil_r, <- ?app_assoc; reflexivity|].
  unfold digit_group.
  repeat split; auto using forallb_digit.
Qed.

Lemma forallb_impl (f g : char -> bool) (l : text) :
  (forall x, f x = true -> g x = true) ->
  forallb f l = true -> forallb g l = true.
Proof.
  intros Hfg. rewrite !forallb_forall. auto.
Qed.

Lemma label_class_char (ch : char) :
  cls_match db false [CRange 97 122; CRange 65 90; CRange 48 57; CChar 45] ch
  = true ->
  domain_char ch = true.
Proof.
  unfold cls_match, domain_char, ascii_letter, ascii_upper, ascii_lower,
    ascii_digit.
  cbn [existsb citem_match xorb].
  destruct (between 97 122 ch), (between 65 90 ch), (between 48 57 ch),
    (ch =? 45)%N; simpl; auto; discriminate.
Qed.

Lemma letter_class_char (ch : char) :
  cls_match db false [CRange 97 122; CRange 65 90] ch = true ->
  ascii_letter ch = true.
Proof.
  unfold cls_match, ascii_letter, ascii_upper, ascii_lower.
  cbn [existsb citem_match xorb].
  destruct (between 97 122 ch), (between 65 90 ch); simpl; auto.
Qed.

(** Labels, each followed by a dot. *)
Lemma labels_lang (lo : nat) (x : text) :
  lang db (Rep lo None
             (Cat (Rep 1 None
                     (Cls false [CRange 97 122; CRange 65 90; CRange 48 57;
                                 CChar 45]))
                  (Lit 46))) x ->
  (lo = 0 /\ x = [])
  \/ exists body, x = body ++ [46%N] /\ body <> []
                  /\ forallb domain_char body = true.
Proof.
  intros H.
  remember (Rep lo None
              (Cat (Rep 1 None
                      (Cls false [CRange 97 122; CRange 65 90; CRange 48 57;
                                  CChar 45]))
                   (Lit 46))) as r eqn:Er.
  revert lo Er.
  induction H as [| | | | | | | hi0 r0
                 | lo0 hi0 r0 u v Ehi Hu _ Hne Hv IH |];
    intros lo Er; try discriminate.
  - injection Er as <- _ _. left. auto.
  - injection Er as <- -> ->. right.
    inversion Hu as [| | | | r1 r2 g d Hg Hd | | | | |]; subst.
    inversion Hd; subst. apply lang_rep_cls in Hg.
    destruct Hg as (Hlen & _ & Hall).
    apply (forallb_impl _ _ _ label_class_char) in Hall.
    assert (Hg : g <> []) by (intros ->; simpl in Hlen; lia).
    destruct (IH _ eq_refl) as [[_ ->] | (body & -> & Hb & Hbody)].
    + exists g. rewrite app_nil_r. auto.
    + exists (g ++ [46%N] ++ body). split; [|split].
      * rewrite <- !app_assoc. reflexivity.
      * intros E. apply app_eq_nil in E. tauto.
      * rewrite !forallb_app. apply andb_true_iff. split; [exact Hall|].
        apply andb_true_iff. split; [reflexivity | exact Hbody].
Qed.

Lemma domain_lang_shape (x : text) : lang db domain_re x -> domain_shape x.
Proof.
  intros H. vm_compute in H. inv_lang.
  match goal with
  | H : lang _ (Rep 1 None (Cat _ _)) _ |- _ =>
      apply labels_lang in H;
      destruct H as [[H _] | (body & -> & Hb & Hbody)]; [discriminate|]
  end.
  match goal with
  | H : _ /\ _ /\ forallb _ ?t = true |- _ =>
      destruct H as (Hlen & _ & Hall); exists body, t
  end.
  split; [rewrite ?app_nil_r, <- ?app_assoc; reflexivity|].
  split; [assumption|]. split; [assumption|]. split; [assumption|].
  eapply forallb_impl; [apply letter_class_char | exact Hall].
Qed.

Lemma url_class_char (ch : char) :
  cls_match db true [CSpace; CChar 41; CChar 62; CChar 34] ch = true ->
  negb (url_stop db ch) = true.
Proof.
  unfold cls_match, url_stop. cbn [existsb citem_match xorb].
  rewrite orb_false_r, !orb_assoc. trivial.
Qed.

Lemma url_lang_shape (x : text) : lang db url_re x -> url_shape db x.
Proof.
  intros H. vm_compute in H. inv_lang.
  all: repeat match goal with
       | H : _ /\ _ |- _ => destruct H
       end.
  all: match goal with
       | H : forallb _ ?t = true |- _ =>
           exists t;
           split; [|split;
             [intros ->; simpl in *; lia
             | eapply forallb_impl; [apply url_class_char | exact H]]]
       end.
  - left. rewrite ?app_nil_r. reflexivity.
  - right. rewrite ?app_nil_r. reflexivity.
Qed.

Lemma unix_lang_shape (x : text) : lang db unix_path_re x -> unix_shape x.
Proof.
  intros H.
  assert (Hall : forallb (fun c => negb (is_blank c)) x = true).
  { apply (lang_chars_b _ H). generalize (unix_chars db).
    unfold unix_path_re, plus, chr. cbn [regex_chars].
    intros [H1 H2]. split; [reflexivity|].
    intros y Hy. rewrite (H2 y Hy). reflexivity. }
  vm_compute in H.
  inversion H as [| | | | | | | | lo hi r u v Ehi Hu Hne Hv |]; subst.
  inv_lang.
  match goal with
  | H : _ /\ _ /\ forallb _ ?g = true |- _ =>
      destruct H as (Hlen & _ & _); exists (g ++ v)
  end.
  split; [reflexivity|]. split; [|assumption].
  intros E. apply app_eq_nil in E. destruct E as [-> _]. simpl in Hlen. lia.
Qed.

Lemma win_lang_shape (x : text) : lang db win_path_re x -> win_shape x.
Proof.
  intros H.
  assert (Hall : forallb (fun c => negb (is_break c)) x = true).
  { apply (lang_chars_b _ H). generalize (win_chars db).
    unfold win_path_re, plus, chr. cbn [regex_chars].
    intros (_ & H1 & H2 & H3 & H4 & _).
    split; [exact I|]. split; [intros y Hy; rewrite (H1 y Hy); reflexivity|].
    split; [reflexivity|]. split; [reflexivity|].
    split; [intros y Hy; rewrite (H4 y Hy); reflexivity | exact I]. }
  vm_compute in H. inv_lang.
  match goal with
  | H : _ /\ _ /\ forallb _ ?g = true |- _ =>
      destruct H as (Hlen & _ & _);
      match goal with
      | |- win_shape ([] ++ [?d] ++ _) => exists d, g
      end
  end.
  split; [rewrite ?app_nil_r; reflexivity|].
  split; [|split; [intros ->; simpl in Hlen; lia | assumption]].
  match goal with
  | H : cls_match _ _ _ _ = true |- _ =>
      unfold cls_match in H; cbn [existsb citem_match xorb] in H;
      unfold ascii_letter, ascii_upper, ascii_lower;
      rewrite orb_false_r in H; exact H
  end.
Qed.

Lemma findall_lang (s : text) (r : regex) (x : text) :
  has_group r = false -> In x (findall db r s) -> lang db r x.
Proof.
  intros Hg H. apply findall_sub in H; [|assumption].
  destruct H as (p & e & c & Hm & ->). eapply matches_lang; eassumption.
Qed.

End ShapeOfMatches.

(** X3: every element of ips is made of four groups of one to three
    digits, separated by dots; nothing bounds the groups by 255. *)
Theorem ips_are_dotted_quads (db : UnicodeDB) (log_text : option text)
    (x : text) :
  In x (ips (extract_indicators db log_text)) -> dotted_quad db x.
Proof.
  unfold extract_indicators, extract_indicators_with. cbn [ips].
  rewrite py_sorted_In, dedup_In. intros H.
  apply ip_lang_shape. eapply findall_lang; [reflexivity | exact H].
Qed.

(** The address 999.1.22.333 of a sample line. *)
Lemma ips_are_dotted_quads_witness : dotted_quad ascii_db (str "999.1.22.333").
Proof.
  apply (@ips_are_dotted_quads ascii_db
           (Some (str "from 999.1.22.333 port 22"))).
  vm_compute. left. reflexivity.
Defined.

(** X4: every element of domains is made of letters, digits, hyphens and
    dots, followed by a dot and two or more letters. *)
Theorem domains_have_tld (db : UnicodeDB) (log_text : option text)
    (x : text) :
  In x (domains (extract_indicators db log_text)) -> domain_shape x.
Proof.
  unfold extract_indicators, extract_indicators_with. cbn [domains].
  rewrite py_sorted_In, dedup_In, filter_In. intros [H _].
  apply (domain_lang_shape (db := db)).
  eapply findall_lang; [reflexivity | exact H].
Qed.

(** The domain api.example.co.il of a sample line. *)
Lemma domains_have_tld_witness : domain_shape (str "api.example.co.il").
Proof.
  apply (@domains_have_tld ascii_db
           (Some (str "resolve api.example.co.il failed"))).
  vm_compute. left. reflexivity.
Defined.

(** X5: every element of urls starts with http:// or https://, goes on
    with one character or more, and holds no white space, closing
    parenthesis, greater-than sign or double quote after that prefix. *)
Theorem urls_have_scheme (db : UnicodeDB) (log_text : option text)
    (x : text) :
  In x (urls (extract_indicators db log_text)) -> url_shape db x.
Proof.
  unfold extract_indicators, extract_indicators_with. cbn [urls].
  rewrite py_sorted_In, dedup_In. intros H.
  apply url_lang_shape. eapply findall_lang; [reflexivity | exact H].
Qed.

(** The url of a sample line, without the parenthesis that follows it. *)
Lemma urls_have_scheme_witness :
  url_shape ascii_db (str "https://a.example.com/x?y=1").
Proof.
  apply (@urls_have_scheme ascii_db
           (Some (str "(see https://a.example.com/x?y=1) for details"))).
  vm_compute. left. reflexivity.
Defined.

(** X6: every element of file_paths is either a slash followed by more
    characters, with no space, tab, newline or carriage return in it, or a
    drive letter, a colon and a backslash followed by more characters, with
    no tab, newline or carriage return in it. *)
Theorem file_paths_shape (db : UnicodeDB) (log_text : option text)
    (x : text) :
  In x (file_paths (extract_indicators db log_text)) ->
  unix_shape x \/ win_shape x.
Proof.
  unfold extract_indicators, extract_indicators_with. cbn [file_paths].
  rewrite py_sorted_In, dedup_In, in_app_iff. intros [H | H].
  - left. apply (unix_lang_shape (db := db)).
    eapply findall_lang; [reflexivity | exact H].
  - right. apply (win_lang_shape (db := db)).
    eapply findall_lang; [reflexivity | exact H].
Qed.

(** The Windows path of a sample line, with the words that follow it. *)
Lemma file_paths_shape_witness :
  unix_shape (str "D:\logs\a.txt not found")
  \/ win_shape (str "D:\logs\a.txt not found").
Proof.
  apply (@file_paths_shape ascii_db
           (Some (str "open D:\logs\a.txt not found"))).
  vm_compute. left. reflexivity.
Defined.

(** ** Keywords and the case of the text *)

Section CaseFacts.

Variable db : UnicodeDB.

(** A change of characters that keeps what the keyword patterns look at. *)
Variable f : char -> char.
Hypothesis f_word : forall x, is_word db (f x) = is_word db x.
Hypothesis f_icase : forall a x, icase_eq db a (f x) = icase_eq db a x.

Lemma word_at_map (s : text) (i : nat) :
  word_at db (map f s) i = word_at db s i.
Proof.
  unfold word_at. rewrite nth_error_map.
  destruct (nth_error s i); simpl; [apply f_word | reflexivity].
Qed.

Lemma at_boundary_map (s : text) (i : nat) :
  at_boundary db (map f s) i = at_boundary db s i.
Proof.
  unfold at_boundary, word_before. rewrite word_at_map.
  destruct i; [reflexivity|]. rewrite word_at_map. reflexivity.
Qed.

Lemma prefix_icase_map (kw s : text) : forall i,
  prefix_icase db kw (map f s) i = prefix_icase db kw s i.
Proof.
  induction kw as [|a kw IH]; intros i; simpl; [reflexivity|].
  rewrite nth_error_map. destruct (nth_error s i); simpl; [|reflexivity].
  rewrite f_icase, IH. reflexivity.
Qed.

Lemma occurs_whole_word_map (kw s : text) :
  occurs_whole_word db kw (map f s) = occurs_whole_word db kw s.
Proof.
  unfold occurs_whole_word, positions, whole_word_at. rewrite length_map.
  apply existsb_pointwise.
  intros p. rewrite !at_boundary_map, prefix_icase_map. reflexivity.
Qed.

Lemma keywords_map (s : text) :
  keywords (extract_indicators db (Some (map f s)))
  = keywords (extract_indicators db (Some s)).
Proof.
  unfold extract_indicators, extract_indicators_with.
  cbn [keywords or_empty]. apply filter_ext. intros kw.
  rewrite !search_kw. apply occurs_whole_word_map.
Qed.

End CaseFacts.

Ltac n_case :=
  match goal with
  | |- context [N.leb ?a ?b] => destruct (N.leb_spec a b)
  | |- context [N.ltb ?a ?b] => destruct (N.ltb_spec a b)
  | |- context [N.eqb ?a ?b] => destruct (N.eqb_spec a b)
  end.

Ltac n_cases :=
  repeat n_case; cbn [andb orb negb] in *; try reflexivity; try lia.

Lemma toupper_word (db : UnicodeDB) (x : char) :
  is_word db (ascii_toupper x) = is_word db x.
Proof.
  unfold ascii_toupper, is_word, ascii_digit, ascii_upper, ascii_lower,
    between.
  destruct (N.leb_spec 97 x), (N.leb_spec x 122); cbn [andb]; try reflexivity.
  all: n_cases.
Qed.

Lemma toupper_icase (db : UnicodeDB) (a x : char) :
  icase_eq db a (ascii_toupper x) = icase_eq db a x.
Proof.
  unfold ascii_toupper, icase_eq, ascii_tolower, ascii_upper, ascii_lower,
    between.
  destruct (N.leb_spec 97 x), (N.leb_spec x 122); cbn [andb]; try reflexivity.
  all: n_cases.
Qed.

Lemma tolower_word (db : UnicodeDB) (x : char) :
  is_word db (ascii_tolower x) = is_word db x.
Proof.
  unfold ascii_tolower, is_word, ascii_digit, ascii_upper, ascii_lower,
    between.
  destruct (N.leb_spec 65 x), (N.leb_spec x 90); cbn [andb]; try reflexivity.
  all: n_cases.
Qed.

Lemma tolower_icase (db : UnicodeDB) (a x : char) :
  icase_eq db a (ascii_tolower x) = icase_eq db a x.
Proof.
  unfold icase_eq, ascii_tolower, ascii_upper, between.
  destruct (N.leb_spec 65 x), (N.leb_spec x 90); cbn [andb]; try reflexivity.
  all: n_cases.
Qed.

(** X7: the keywords do not depend on the case of the ASCII letters of the
    text: the text in upper case and the text in lower case give the
    keywords of the text itself. *)
Theorem keywords_ignore_case (db : UnicodeDB) (s : text) :
  keywords (extract_indicators db (Some (upper_ascii s)))
  = keywords (extract_indicators db (Some s))
  /\ keywords (extract_indicators db (Some (lower_ascii s)))
     = keywords (extract_indicators db (Some s)).
Proof.
  split; apply keywords_map;
    auto using toupper_word, toupper_icase, tolower_word, tolower_icase.
Qed.

(** ** Texts of several lines

    A line [t] inside a text [pre ++ t ++ post], between newlines or ends of
    the text: the matcher does on the line inside the text what it does on
    the line alone. *)

Section Window.

Variable db : UnicodeDB.
Variables pre t post : text.

Hypothesis pre_edge : pre = [] \/ exists pre', pre = pre' ++ [10%N].
Hypothesis post_edge : post = [] \/ exists post', post = 10%N :: post'.

Let s : text := pre ++ t ++ post.
Let a : nat := length pre.

Lemma nth_window (i : nat) :
  i < length t -> nth_error s (a + i) = nth_error t i.
Proof.
  intros H. unfold s, a.
  rewrite nth_error_app2 by lia.
  replace (length pre + i - length pre) with i by lia.
  apply nth_error_app1. assumption.
Qed.

Lemma nth_edge :
  nth_error s (a + length t) = None
  \/ nth_error s (a + length t) = Some 10%N.
Proof.
  unfold s, a. rewrite nth_error_app2 by lia.
  replace (length pre + length t - length pre) with (length t) by lia.
  rewrite nth_error_app2 by lia. rewrite Nat.sub_diag.
  destruct post_edge as [-> | [post' ->]]; [left | right]; reflexivity.
Qed.

Lemma newline_not_word : is_word db 10 = false.
Proof. reflexivity. Qed.

Lemma word_at_window (i : nat) :
  i <= length t -> word_at db s (a + i) = word_at db t i.
Proof.
  intros H. unfold word_at.
  destruct (Nat.eq_dec i (length t)) as [-> | Hne].
  - rewrite (proj2 (nth_error_None t (length t))) by lia.
    destruct nth_edge as [-> | ->]; reflexivity.
  - rewrite nth_window by lia. reflexivity.
Qed.

Lemma word_before_window (i : nat) :
  i <= length t -> word_before db s (a + i) = word_before db t i.
Proof.
  intros H. destruct i as [|i].
  - rewrite Nat.add_0_r. cbn [word_before]. unfold a, s.
    destruct pre_edge as [-> | [pre' ->]]; [reflexivity|].
    rewrite length_app, Nat.add_1_r. cbn [word_before]. unfold word_at.
    rewrite <- app_assoc, nth_error_app2 by lia. rewrite Nat.sub_diag.
    reflexivity.
  - rewrite Nat.add_succ_r. cbn [word_before]. apply word_at_window. lia.
Qed.

Lemma at_boundary_window (i : nat) :
  i <= length t -> at_boundary db s (a + i) = at_boundary db t i.
Proof.
  intros H. unfold at_boundary.
  rewrite word_before_window, word_at_window by assumption. reflexivity.
Qed.

Lemma krel_later (i j : nat) (k k' : cont) :
  krel a t i k k' -> i <= j -> krel a t j k k'.
Proof. intros H Hij j' c Hj'. apply H. lia. Qed.

Lemma step_window (p : char -> bool) (i : nat) (c : caps) (k k' : cont) :
  p 10%N = false -> i <= length t -> krel a t i k k' ->
  step p s (a + i) (shift a c) k = lift a (step p t i c k').
Proof.
  intros Hp Hi Hk. unfold step.
  destruct (Nat.eq_dec i (length t)) as [-> | Hne].
  - rewrite (proj2 (nth_error_None t (length t))) by lia.
    destruct nth_edge as [-> | ->]; [reflexivity|].
    rewrite Hp. reflexivity.
  - rewrite nth_window by lia.
    destruct (nth_error t i) as [x|] eqn:E; [|reflexivity].
    destruct (p x); [|reflexivity].
    rewrite <- Nat.add_succ_r. apply Hk. lia.
Qed.

Lemma lift_first (x y : result) :
  lift a (match x with Some res => Some res | None => y end)
  = match lift a x with Some res => Some res | None => lift a y end.
Proof. destruct x as [[e c]|]; reflexivity. Qed.

Lemma rep_window (r : regex) :
  (forall i c k k', i <= length t -> krel a t i k k' ->
     m db r s (a + i) (shift a c) k = lift a (m db r t i c k')) ->
  forall n i lo hi c k k',
    length t - i < n -> i <= length t -> krel a t i k k' ->
    m db (Rep lo hi r) s (a + i) (shift a c) k
    = lift a (m db (Rep lo hi r) t i c k').
Proof.
  intros IHr. induction n as [|n IHn]; intros i lo hi c k k' Hn Hi Hk;
    [lia|].
  rewrite (m_Rep db s), (m_Rep db t), lift_first.
  assert (Hhere : k (a + i) (shift a c) = lift a (k' i c))
    by (apply Hk; lia).
  destruct (hi_allows hi).
  - match goal with
    | |- context [m db r t i c ?kk] => rewrite (IHr i c _ kk Hi)
    end.
    + destruct (m db r t i c _) as [[e1 c1]|]; cbn [lift]; [reflexivity|].
      destruct (lo =? 0); [assumption | reflexivity].
    + intros j c' Hj.
      replace (a + i <? a + j) with (i <? j)
        by (destruct (Nat.ltb_spec i j), (Nat.ltb_spec (a + i) (a + j));
            reflexivity || lia).
      destruct (Nat.ltb_spec i j); [|reflexivity].
      apply IHn; [lia | lia |]. eapply krel_later; [eassumption | lia].
  - cbn [lift]. destruct (lo =? 0); [assumption | reflexivity].
Qed.

Lemma not_newline (p : char -> bool) :
  (forall x, p x = true -> x <> 10%N) -> p 10%N = false.
Proof.
  intros H. destruct (p 10%N) eqn:E; [|reflexivity].
  exfalso. apply (H _ E). reflexivity.
Qed.

(** On a line inside the text the matcher finds what it finds on the line
    alone, at the positions of the text. *)
Lemma m_window (r : regex) :
  newline_free db r ->
  forall i c k k', i <= length t -> krel a t i k k' ->
    m db r s (a + i) (shift a c) k = lift a (m db r t i c k').
Proof.
  unfold newline_free.
  induction r as [x | x | neg items | | r1 IH1 r2 IH2 | r1 IH1 r2 IH2
                 | lo hi r IH | r IH]; cbn [regex_chars]; intros Hr i c k k' Hi Hk.
  - cbn [m]. apply step_window; try assumption.
    apply N.eqb_neq. intros E. apply Hr. symmetry. exact E.
  - cbn [m]. apply step_window; try assumption.
    apply not_newline. assumption.
  - cbn [m]. apply step_window; try assumption.
    apply not_newline. assumption.
  - cbn [m]. rewrite at_boundary_window by assumption.
    destruct (at_boundary db t i); [apply Hk; lia | reflexivity].
  - cbn [m]. destruct Hr as [Hr1 Hr2]. apply IH1; try assumption.
    intros j c' Hj. apply IH2; [assumption | lia |].
    eapply krel_later; [eassumption | lia].
  - cbn [m]. destruct Hr as [Hr1 Hr2]. rewrite lift_first.
    rewrite (IH1 Hr1 i c k k' Hi Hk), (IH2 Hr2 i c k k' Hi Hk). reflexivity.
  - pose proof (@rep_window r (IH Hr) (S (length t - i))) as Hrep.
    apply Hrep; [lia | assumption..].
  - cbn [m]. apply IH; try assumption.
    intros j c' Hj. apply (Hk j (Some (i, j))). assumption.
Qed.

Lemma match_at_window (r : regex) (i : nat) (b : bool) :
  newline_free db r -> i <= length t ->
  match_at db r s (a + i) b = lift a (match_at db r t i b).
Proof.
  intros Hr Hi. unfold match_at.
  pose proof (@m_window r Hr i None) as Hw. cbn [shift] in Hw.
  apply Hw; [assumption|].
  intros j c Hj.
  replace (a + j =? a + i) with (j =? i)
    by (destruct (Nat.eqb_spec j i), (Nat.eqb_spec (a + j) (a + i));
        reflexivity || lia).
  destruct (b && (j =? i)); reflexivity.
Qed.

Lemma sub_window (x y : nat) :
  y <= length t -> sub s (a + x) (a + y) = sub t x y.
Proof.
  intros Hy. unfold sub, s, a.
  replace (length pre + y - (length pre + x)) with (y - x) by lia.
  rewrite skipn_app, skipn_all2 by lia.
  replace (length pre + x - length pre) with x by lia. cbn [app].
  rewrite skipn_app, firstn_app, length_skipn.
  replace (y - x - (length t - x)) with 0 by lia.
  rewrite firstn_0, app_nil_r. reflexivity.
Qed.

Lemma matches_caps (r : regex) (i j : nat) (c c' : caps) :
  matches db t r i c j c' -> caps_le c i -> caps_le c' j.
Proof.
  induction 1; intros Hc; auto; try (destruct c as [[? ?]|]; simpl in *; lia).
Qed.

Lemma item_window (r : regex) (p e : nat) (c : caps) :
  e <= length t -> caps_le c e ->
  item r s (a + p) (a + e) (shift a c) = item r t p e c.
Proof.
  intros He Hc. unfold item. destruct (has_group r).
  - destruct c as [[x y]|]; [|reflexivity]. simpl in Hc. cbn [shift].
    apply sub_window. lia.
  - apply sub_window. assumption.
Qed.

Lemma match_at_item (r : regex) (p e : nat) (c : caps) (b : bool) :
  p <= length t -> match_at db r t p b = Some (e, c) ->
  e <= length t /\ caps_le c e.
Proof.
  intros Hp H. apply match_at_sound in H. destruct H as [Hm _].
  pose proof (matches_bounds Hm). split; [lia|].
  apply (matches_caps Hm). exact I.
Qed.

Lemma scan_low_next (r : regex) (u : text) (ps : list nat) : forall next,
  (forall p, In p ps -> next <= p) ->
  scan db r u ps next = scan db r u ps 0.
Proof.
  induction ps as [|p ps IH]; intros next H; [reflexivity|].
  cbn [scan].
  assert (Hp : next <= p) by (apply H; left; reflexivity).
  assert (Hps : forall q, In q ps -> next <= q)
    by (intros q Hq; apply H; right; assumption).
  rewrite (proj2 (Nat.ltb_ge p next)) by assumption.
  cbn [Nat.ltb Nat.leb]. rewrite (IH next Hps). reflexivity.
Qed.

Lemma ltb_shift (x y : nat) : (a + x <? a + y) = (x <? y).
Proof.
  destruct (Nat.ltb_spec x y), (Nat.ltb_spec (a + x) (a + y));
    reflexivity || lia.
Qed.

(** Scanning the positions of a line inside the text gives the items of the
    line alone, and leaves the positions after the line untouched. *)
Lemma scan_window (r : regex) (ps2 : list nat) :
  newline_free db r ->
  (forall p, In p ps2 -> a + length t < p) ->
  forall n i next, i + n = S (length t) -> next <= S (length t) ->
    scan db r s (seq (a + i) n ++ ps2) (a + next)
    = scan db r t (seq i n) next ++ scan db r s ps2 0.
Proof.
  intros Hr Hps2. induction n as [|n IH]; intros i next Hn Hnext.
  - cbn [seq app scan]. apply scan_low_next.
    intros p Hp. specialize (Hps2 p Hp). lia.
  - assert (Hi : i <= length t) by lia.
    cbn [seq app scan]. rewrite ltb_shift.
    rewrite <- Nat.add_succ_r.
    assert (Hrec : forall nx, nx <= S (length t) ->
              scan db r s (seq (a + S i) n ++ ps2) (a + nx)
              = scan db r t (seq (S i) n) nx ++ scan db r s ps2 0)
      by (intros nx Hnx; apply IH; lia).
    destruct (i <? next); [apply Hrec; assumption|].
    rewrite (@match_at_window r i false Hr Hi).
    destruct (match_at db r t i false) as [[e c]|] eqn:E; cbn [lift];
      [|apply Hrec; assumption].
    destruct (@match_at_item r i e c false Hi E) as [He Hc].
    rewrite ltb_shift, (@item_window r i e c He Hc).
    destruct (i <? e).
    + cbn [app]. f_equal. apply Hrec. lia.
    + cbn [app]. f_equal.
      rewrite (@match_at_window r i true Hr Hi).
      destruct (match_at db r t i true) as [[e' c']|] eqn:E'; cbn [lift];
        [|apply Hrec; assumption].
      destruct (@match_at_item r i e' c' true Hi E') as [He' Hc'].
      rewrite (@item_window r i e' c' He' Hc').
      cbn [app]. f_equal. apply Hrec. lia.
Qed.

Lemma search_window (r : regex) :
  newline_free db r ->
  forall n i, i + n <= S (length t) ->
    existsb (fun p => match match_at db r s p false with
                      | Some _ => true
                      | None => false
                      end) (seq (a + i) n)
    = existsb (fun p => match match_at db r t p false with
                        | Some _ => true
                        | None => false
                        end) (seq i n).
Proof.
  intros Hr. induction n as [|n IH]; intros i Hn; [reflexivity|].
  cbn [seq existsb]. rewrite <- Nat.add_succ_r, IH by lia.
  rewrite (@match_at_window r i false Hr) by lia.
  destruct (match_at db r t i false) as [[e c]|]; reflexivity.
Qed.

End Window.

Section Lines.

Variable db : UnicodeDB.
Variables s1 s2 : text.

Lemma second_line_text :
  s1 ++ [10%N] ++ s2 = (s1 ++ [10%N]) ++ s2 ++ [].
Proof. rewrite app_nil_r, <- app_assoc. reflexivity. Qed.

Lemma lines_positions :
  positions (s1 ++ [10%N] ++ s2)
  = seq 0 (S (length s1)) ++ seq (length (s1 ++ [10%N]) + 0) (S (length s2)).
Proof.
  unfold positions. rewrite !length_app. cbn [length Nat.add].
  rewrite <- Nat.add_succ_l, seq_app. f_equal. f_equal.
  rewrite Nat.add_0_r, Nat.add_1_r. reflexivity.
Qed.

(** The matches of a text of two lines are the matches of the first line
    followed by the matches of the second. *)
Lemma findall_lines (r : regex) :
  newline_free db r ->
  findall db r (s1 ++ [10%N] ++ s2) = findall db r s1 ++ findall db r s2.
Proof.
  intros Hr. unfold findall. rewrite lines_positions.
  pose proof (@scan_window db [] s1 (10%N :: s2) (or_introl eq_refl)
                (or_intror (ex_intro _ s2 eq_refl)) r
                (seq (length (s1 ++ [10%N]) + 0) (S (length s2))) Hr) as H1.
  etransitivity.
  { apply (H1 ltac:(intros p Hp; apply in_seq in Hp;
                    rewrite length_app in Hp; cbn [length] in Hp;
                    cbn [app length]; lia)
              (S (length s1)) 0 0 ltac:(lia) ltac:(lia)). }
  f_equal. clear H1.
  pose proof (@scan_window db (s1 ++ [10%N]) s2 []
                (or_intror (ex_intro _ s1 eq_refl)) (or_introl eq_refl) r
                [] Hr ltac:(intros p []) (S (length s2)) 0 0
                ltac:(lia) ltac:(lia)) as H2.
  rewrite !app_nil_r in H2. cbn [scan] in H2.
  assert (Et : [] ++ s1 ++ 10%N :: s2 = (s1 ++ [10%N]) ++ s2)
    by (rewrite <- app_assoc; reflexivity).
  rewrite Et. unfold positions. rewrite <- H2.
  symmetry. apply scan_low_next.
  intros p Hp. apply in_seq in Hp. lia.
Qed.

Lemma search_lines (r : regex) :
  newline_free db r ->
  search db r (s1 ++ [10%N] ++ s2) = search db r s1 || search db r s2.
Proof.
  intros Hr. unfold search. rewrite lines_positions, existsb_app.
  pose proof (@search_window db [] s1 (10%N :: s2) (or_introl eq_refl)
                (or_intror (ex_intro _ s2 eq_refl)) r Hr
                (S (length s1)) 0 ltac:(lia)) as H1.
  f_equal; [exact H1|].
  pose proof (@search_window db (s1 ++ [10%N]) s2 []
                (or_intror (ex_intro _ s1 eq_refl)) (or_introl eq_refl) r Hr
                (S (length s2)) 0 ltac:(lia)) as H2.
  rewrite app_nil_r, <- app_assoc in H2. exact H2.
Qed.

End Lines.

Ltac newline_free_tac :=
  unfold newline_free;
  cbv - [cls_match icase_eq not];
  repeat split;
  try discriminate;
  try (let x := fresh "x" in let Hx := fresh "Hx" in
       intros x Hx ->; vm_compute in Hx; discriminate).

Section PatternsAndLines.

Variable db : UnicodeDB.

Lemma ip_newline_free : newline_free db ip_re.
Proof. newline_free_tac. Qed.

Lemma domain_newline_free : newline_free db domain_re.
Proof. newline_free_tac. Qed.

Lemma url_newline_free : newline_free db url_re.
Proof. newline_free_tac. Qed.

Lemma unix_newline_free : newline_free db unix_path_re.
Proof. newline_free_tac. Qed.

Lemma win_newline_free : newline_free db win_path_re.
Proof. newline_free_tac. Qed.

Lemma status_newline_free : newline_free db status_re.
Proof. newline_free_tac. Qed.

Lemma kw_newline_free (kw : text) :
  In kw KEYWORDS -> newline_free db (kw_re kw).
Proof.
  intros H. repeat (destruct H as [<- | H]; [newline_free_tac|]).
  destruct H.
Qed.

(** The sorted set of the matches of two lines is the sorted set of the two
    sorted sets. *)
Lemma sorted_union (l l1 l2 : list text) :
  (forall x, In x l <-> In x l1 \/ In x l2) ->
  py_sorted (dedup l)
  = py_sorted (dedup (py_sorted (dedup l1) ++ py_sorted (dedup l2))).
Proof.
  intros H. apply sorted_set_order; try apply dedup_is_set_order.
  intros x. rewrite H, in_app_iff, !py_sorted_In, !dedup_In. reflexivity.
Qed.

Lemma domains_raw (s : text) (x : text) :
  In x (filter (fun d => negb (mem d (py_sorted (dedup (findall db ip_re s)))))
          (findall db domain_re s))
  <-> In x (findall db domain_re s).
Proof.
  rewrite filter_In. split; [tauto|]. intros H. split; [assumption|].
  apply negb_true_iff, mem_not_In. rewrite py_sorted_In, dedup_In.
  apply domain_not_ip. assumption.
Qed.

End PatternsAndLines.

(** X8: the report of a text of two lines, joined by a newline, is made of
    the reports of the two lines: each list is the sorted union of the lists
    of the lines, and a keyword is reported when one of the lines has it. *)
Theorem report_of_lines (db : UnicodeDB) (s1 s2 : text) :
  let r := extract_indicators db (Some (s1 ++ [10%N] ++ s2)) in
  let r1 := extract_indicators db (Some s1) in
  let r2 := extract_indicators db (Some s2) in
  ips r = py_sorted (dedup (ips r1 ++ ips r2))
  /\ domains r = py_sorted (dedup (domains r1 ++ domains r2))
  /\ urls r = py_sorted (dedup (urls r1 ++ urls r2))
  /\ file_paths r = py_sorted (dedup (file_paths r1 ++ file_paths r2))
  /\ status_codes r = py_sorted (dedup (status_codes r1 ++ status_codes r2))
  /\ keywords r
     = filter (fun kw => mem kw (keywords r1) || mem kw (keywords r2))
         KEYWORDS.
Proof.
  cbv zeta. unfold extract_indicators, extract_indicators_with.
  cbn [ips domains urls file_paths status_codes keywords or_empty].
  repeat split.
  - apply sorted_union. intros x.
    rewrite (@findall_lines db s1 s2 _ (ip_newline_free db)), in_app_iff.
    reflexivity.
  - apply sorted_union. intros x.
    rewrite !domains_raw.
    rewrite (@findall_lines db s1 s2 _ (domain_newline_free db)), in_app_iff.
    reflexivity.
  - apply sorted_union. intros x.
    rewrite (@findall_lines db s1 s2 _ (url_newline_free db)), in_app_iff.
    reflexivity.
  - apply sorted_union. intros x.
    rewrite (@findall_lines db s1 s2 _ (unix_newline_free db)),
      (@findall_lines db s1 s2 _ (win_newline_free db)), !in_app_iff.
    tauto.
  - apply sorted_union. intros x.
    rewrite (@findall_lines db s1 s2 _ (status_newline_free db)), in_app_iff.
    reflexivity.
  - apply filter_ext_in. intros kw Hkw.
    rewrite (@search_lines db s1 s2 _ (@kw_newline_free db kw Hkw)).
    f_equal; apply eq_true_iff_eq;
      rewrite mem_In, filter_In; tauto.
Qed.

(** ** Finding a given address *)

Lemma app_eq_length {A : Type} (a b u v : list A) :
  a ++ b = u ++ v -> length a = length u -> a = u /\ b = v.
Proof.
  revert u. induction a as [|x a IH]; intros [|y u] H Hl;
    try discriminate.
  - auto.
  - simpl in H. injection H as -> H. injection Hl as Hl.
    destruct (IH u H Hl) as [-> ->]. auto.
Qed.

Section Building.

Variable db : UnicodeDB.
Variable s : text.

Lemma sub_app_split (u v : text) (i : nat) :
  sub s i (length (u ++ v) + i) = u ++ v ->
  sub s i (length u + i) = u
  /\ sub s (length u + i) (length v + (length u + i)) = v.
Proof.
  intros H.
  assert (Hlen : length (sub s i (length (u ++ v) + i)) = length (u ++ v))
    by (rewrite H; reflexivity).
  unfold sub in Hlen. rewrite length_firstn, length_skipn in Hlen.
  rewrite length_app in *.
  rewrite (@sub_split s i (length u + i)) in H by lia.
  replace (length u + length v + i) with (length v + (length u + i))
    in H by lia.
  apply app_eq_length in H; [exact H|].
  unfold sub. rewrite length_firstn, length_skipn.
  unfold text, char in *. lia.
Qed.

Lemma sub_one_inv (i : nat) (a : char) :
  sub s i (1 + i) = [a] -> nth_error s i = Some a.
Proof.
  intros H. rewrite <- (Nat.add_0_r i) at 1.
  rewrite <- (@sub_nth s i (1 + i) 0) by lia. rewrite H. reflexivity.
Qed.

(** A string of the language of a pattern without [\b] that stands in the
    text is matched there. *)
Lemma lang_matches (r : regex) (x : text) :
  lang db r x -> bnd_free r = true ->
  forall i c, sub s i (length x + i) = x ->
    exists c', matches db s r i c (length x + i) c'.
Proof.
  induction 1 as [a | a y Hy | neg items y Hy | | r1 r2 u v _ IH1 _ IH2
                 | r1 r2 u _ IH | r1 r2 u _ IH | hi r
                 | lo hi r u v Ehi _ IH1 Hne _ IH2 | r u _ IH];
    cbn [bnd_free]; intros Hb i c Hsub; try discriminate.
  - apply sub_one_inv in Hsub. exists c. constructor. assumption.
  - apply sub_one_inv in Hsub. exists c. econstructor; eassumption.
  - apply sub_one_inv in Hsub. exists c. econstructor; eassumption.
  - apply andb_true_iff in Hb. destruct Hb as [Hb1 Hb2].
    apply sub_app_split in Hsub. destruct Hsub as [Hu Hv].
    destruct (IH1 Hb1 i c Hu) as [c1 H1].
    destruct (IH2 Hb2 _ c1 Hv) as [c2 H2].
    exists c2. rewrite length_app.
    replace (length u + length v + i) with (length v + (length u + i))
      by lia.
    econstructor; eassumption.
  - apply andb_true_iff in Hb. destruct Hb as [Hb1 _].
    destruct (IH Hb1 i c Hsub) as [c' H']. exists c'.
    apply M_AltL. assumption.
  - apply andb_true_iff in Hb. destruct Hb as [_ Hb2].
    destruct (IH Hb2 i c Hsub) as [c' H']. exists c'.
    apply M_AltR. assumption.
  - exists c. apply M_RepStop.
  - apply sub_app_split in Hsub. destruct Hsub as [Hu Hv].
    destruct (IH1 Hb i c Hu) as [c1 H1].
    destruct (IH2 Hb _ c1 Hv) as [c2 H2].
    exists c2. rewrite length_app.
    replace (length u + length v + i) with (length v + (length u + i))
      by lia.
    eapply M_RepMore; try eassumption.
    destruct u; [contradiction | simpl; lia].
  - destruct (IH Hb i c Hsub) as [c' H']. eexists.
    eapply M_Grp. eassumption.
Qed.

Lemma matches_no_group (r : regex) (i j : nat) (c c' : caps) :
  matches db s r i c j c' -> has_group r = false -> c' = c.
Proof.
  induction 1; cbn [has_group]; intros Hg; try reflexivity;
    try (apply orb_false_iff in Hg; destruct Hg as [Hg1 Hg2]);
    try discriminate; auto.
  - rewrite IHmatches2, IHmatches1; auto.
  - rewrite IHmatches2, IHmatches1; auto.
Qed.

(** A run of characters of a class is in the language of the repetition. *)
Lemma lang_rep_cls_build (neg : bool) (items : list citem) (g : text) :
  forall lo hi,
    lo <= length g -> (forall h, hi = Some h -> length g <= h) ->
    forallb (cls_match db neg items) g = true ->
    lang db (Rep lo hi (Cls neg items)) g.
Proof.
  induction g as [|x g IH]; intros lo hi Hlo Hhi Hall.
  - simpl in Hlo. assert (lo = 0) as -> by lia. constructor.
  - cbn [forallb] in Hall. apply andb_true_iff in Hall.
    destruct Hall as [Hx Hall].
    change (x :: g) with ([x] ++ g). apply L_RepMore.
    + destruct hi as [[|h]|]; try reflexivity.
      specialize (Hhi 0 eq_refl). simpl in Hhi. lia.
    + constructor. assumption.
    + discriminate.
    + apply IH; [simpl in Hlo; lia | | assumption].
      intros h Eh. destruct hi as [h0|]; [|discriminate].
      injection Eh as <-. specialize (Hhi h0 eq_refl). simpl in Hhi. lia.
Qed.

End Building.

Section IpFound.

Variable db : UnicodeDB.

Lemma forallb_digit_cls (g : text) :
  forallb (is_digit db) g = true ->
  forallb (cls_match db false [CDigit]) g = true.
Proof.
  induction g as [|x g IH]; cbn [forallb]; [reflexivity|].
  rewrite cls_digit. intros H. apply andb_true_iff in H.
  destruct H as [-> H]. apply IH. exact H.
Qed.

Lemma digit_group_lang (g : text) :
  digit_group db g -> lang db (Rep 1 (Some 3) digit) g.
Proof.
  intros [[Hlo Hhi] Hall]. apply lang_rep_cls_build.
  - assumption.
  - intros h [= <-]. assumption.
  - apply forallb_digit_cls. assumption.
Qed.

Lemma digit_group_dot_lang (g : text) :
  digit_group db g ->
  lang db (Cat (Rep 1 (Some 3) digit) (chr ".")) (g ++ [46%N]).
Proof.
  intros H. constructor; [apply digit_group_lang; assumption|].
  apply L_Lit.
Qed.

(** A dotted quad is in the language of the IP pattern. *)
Lemma dotted_quad_lang (x : text) : dotted_quad db x -> lang db ip_core x.
Proof.
  intros (g1 & g2 & g3 & g4 & -> & H1 & H2 & H3 & H4).
  replace (g1 ++ [46%N] ++ g2 ++ [46%N] ++ g3 ++ [46%N] ++ g4)
    with (((g1 ++ [46%N]) ++ (g2 ++ [46%N]) ++ (g3 ++ [46%N]) ++ []) ++ g4)
    by (rewrite app_nil_r, <- !app_assoc; reflexivity).
  unfold ip_core. constructor; [|apply digit_group_lang; assumption].
  assert (Hne : forall g : text, g ++ [46%N] <> [])
    by (intros g E; apply app_eq_nil in E; destruct E; discriminate).
  apply L_RepMore;
    [reflexivity | apply digit_group_dot_lang; assumption | apply Hne |].
  apply L_RepMore;
    [reflexivity | apply digit_group_dot_lang; assumption | apply Hne |].
  apply L_RepMore;
    [reflexivity | apply digit_group_dot_lang; assumption | apply Hne |].
  apply L_RepStop.
Qed.

Lemma digit_not_blank (ch : char) : is_digit db ch = true -> is_blank ch = false.
Proof.
  unfold is_digit, ascii_digit, between, is_blank.
  destruct (N.ltb_spec ch 128) as [Hlt | Hge].
  - rewrite andb_true_iff, !N.leb_le. intros Hd.
    rewrite !orb_false_iff, !N.eqb_neq. lia.
  - intros _. rewrite !orb_false_iff, !N.eqb_neq. lia.
Qed.

Lemma ip_chars : regex_chars db (fun ch => is_blank ch = false) ip_re.
Proof.
  unfold ip_re, digit, chr. cbn [regex_chars].
  assert (Hd : forall x, cls_match db false [CDigit] x = true ->
                 is_blank x = false)
    by (intros x Hx; rewrite cls_digit in Hx; apply digit_not_blank; exact Hx).
  repeat split; try exact Hd; reflexivity.
Qed.

Lemma dots_app (u v : text) : dots (u ++ v) = dots u + dots v.
Proof. unfold dots. rewrite filter_app, length_app. reflexivity. Qed.

Lemma digit_group_dots (g : text) : forallb (is_digit db) g = true -> dots g = 0.
Proof.
  unfold dots. induction g as [|x g IH]; cbn [forallb filter]; [reflexivity|].
  intros H. apply andb_true_iff in H. destruct H as [Hx Hg].
  destruct (N.eqb_spec 46 x) as [<- | _]; [discriminate Hx|].
  apply IH. assumption.
Qed.

Lemma dotted_quad_dots (x : text) : dotted_quad db x -> dots x = 3.
Proof.
  intros (g1 & g2 & g3 & g4 & -> & [_ H1] & [_ H2] & [_ H3] & [_ H4]).
  rewrite !dots_app, (digit_group_dots g1 H1), (digit_group_dots g2 H2),
    (digit_group_dots g3 H3), (digit_group_dots g4 H4).
  reflexivity.
Qed.

Lemma dotted_quad_chars (x : text) :
  dotted_quad db x ->
  forallb (fun ch => is_digit db ch || (ch =? 46)%N) x = true.
Proof.
  intros (g1 & g2 & g3 & g4 & -> & [_ H1] & [_ H2] & [_ H3] & [_ H4]).
  rewrite forallb_forall in H1, H2, H3, H4.
  apply forallb_forall. intros y Hy. rewrite !in_app_iff in Hy.
  assert (Hdot : In y [46%N] -> (y =? 46)%N = true)
    by (intros [<- | []]; reflexivity).
  destruct Hy as [Hy | [Hy | [Hy | [Hy | [Hy | [Hy | Hy]]]]]];
    try (rewrite (Hdot Hy); apply orb_true_r);
    [rewrite (H1 y Hy) | rewrite (H2 y Hy) | rewrite (H3 y Hy)
    | rewrite (H4 y Hy)]; reflexivity.
Qed.

(** A dotted quad begins and ends with a digit. *)
Lemma dotted_quad_ends (x : text) :
  dotted_quad db x ->
  exists d d',
    nth_error x 0 = Some d /\ is_digit db d = true
    /\ nth_error x (length x - 1) = Some d' /\ is_digit db d' = true
    /\ 0 < length x.
Proof.
  intros (g1 & g2 & g3 & g4 & -> & [[L1 _] H1] & _ & _ & [[L4 _] H4]).
  unfold text, char in *.
  assert (P1 : 0 < length g1) by lia.
  assert (P4 : length g4 - 1 < length g4) by lia.
  destruct (@forallb_nth (is_digit db) g1 0 H1 P1) as (d & Hd & Dd).
  destruct (@forallb_nth (is_digit db) g4 (length g4 - 1) H4 P4)
    as (d' & Hd' & Dd').
  exists d, d'. split; [|split; [assumption|split; [|split; [assumption|]]]].
  - rewrite nth_error_app1 by lia. assumption.
  - rewrite !app_assoc. rewrite nth_error_app2.
    + etransitivity; [|exact Hd']. f_equal. rewrite !length_app. lia.
    + rewrite !length_app. lia.
  - rewrite !length_app. lia.
Qed.

End IpFound.

Section IpToken.

Variable db : UnicodeDB.
Variable s : text.

Lemma ip_match_parts (p e : nat) (c : caps) :
  matches db s ip_re p None e c ->
  at_boundary db s p = true /\ at_boundary db s e = true.
Proof.
  unfold ip_re. intros H.
  apply matches_Cat_inv in H. destruct H as (j0 & c0 & H0 & H).
  apply matches_Bnd_inv in H0. destruct H0 as (-> & -> & B0).
  apply matches_Cat_inv in H. destruct H as (j1 & c1 & H1 & H).
  apply matches_Cat_inv in H. destruct H as (j2 & c2 & H2 & H).
  apply matches_Bnd_inv in H. destruct H as (-> & -> & B2).
  auto.
Qed.

Lemma ip_match_build (p e : nat) (c : caps) :
  at_boundary db s p = true -> at_boundary db s e = true ->
  matches db s ip_core p None e c -> matches db s ip_re p None e c.
Proof.
  unfold ip_core, ip_re. intros Bp Be H.
  apply matches_Cat_inv in H. destruct H as (j1 & c1 & H1 & H2).
  eapply M_Cat; [apply M_Bnd; assumption|].
  eapply M_Cat; [eassumption|].
  eapply M_Cat; [eassumption|].
  apply M_Bnd. assumption.
Qed.

Lemma sub_head (e k : nat) (ch : char) :
  e < k -> nth_error s e = Some ch ->
  sub s e k = ch :: sub s (S e) k.
Proof.
  intros Hek Hch. rewrite (@sub_split s e (S e) k) by lia.
  rewrite (sub_one _ _ Hch). reflexivity.
Qed.

(** At a dotted quad between blanks every match of the IP pattern ends
    where the quad ends. *)
Lemma ip_end_unique (tok : text) (p e : nat) (c : caps) :
  dotted_quad db tok -> token_at is_blank tok s p = true ->
  matches db s ip_re p None e c ->
  e = length tok + p /\ c = None.
Proof.
  intros Hq Htok Hm.
  apply token_at_spec in Htok. destruct Htok as (Hsub & _ & Hend).
  split; [|apply (matches_no_group Hm); reflexivity].
  pose proof (ip_match_parts Hm) as [_ Be].
  pose proof (ip_match_last Hm) as (Hpe & d & Hd & Dd).
  assert (Hle : e <= length tok + p).
  { destruct (le_lt_dec e (length tok + p)) as [H | H]; [assumption|].
    exfalso.
    destruct (@matches_chars db s _ _ _ _ _ _ Hm (ip_chars db)
                (length tok + p)) as (ch & Hch & Hb); [lia|].
    unfold delim_at in Hend. rewrite Hch in Hend. congruence. }
  destruct (Nat.eq_dec e (length tok + p)) as [E | Hne]; [assumption|].
  exfalso.
  assert (Hlt : e - p < length tok) by lia.
  pose proof (@sub_eq_nth s tok p (e - p) Hsub Hlt) as Hn.
  replace (p + (e - p)) with e in Hn by lia.
  destruct (nth_error tok (e - p)) as [ch|] eqn:Ech;
    [|apply nth_error_None in Ech; lia].
  (* the character after the match is not a word character *)
  assert (Hw : is_word db ch = false).
  { unfold at_boundary in Be. destruct e as [|e']; [lia|].
    cbn [word_before] in Be. unfold word_at in Be.
    replace (S e' - 1) with e' in Hd by lia.
    rewrite Hd, Hn, (is_digit_word db d Dd) in Be.
    destruct (is_word db ch); [discriminate | reflexivity]. }
  (* so it is a dot *)
  assert (Hdot : ch = 46%N).
  { pose proof (dotted_quad_chars Hq) as Hall.
    rewrite forallb_forall in Hall.
    specialize (Hall ch (nth_error_In _ _ Ech)).
    apply orb_true_iff in Hall. destruct Hall as [Hdg | Hdt].
    - rewrite (is_digit_word db ch Hdg) in Hw. discriminate.
    - apply N.eqb_eq. assumption. }
  subst ch.
  (* and the quad would have four dots *)
  pose proof (dotted_quad_dots Hq) as Htd.
  rewrite <- Hsub in Htd.
  rewrite (@sub_split s p e (length tok + p)) in Htd by lia.
  rewrite (@sub_head e (length tok + p) 46%N) in Htd by (lia || assumption).
  rewrite dots_app in Htd.
  assert (Hq' : dotted_quad db (sub s p e)).
  { apply ip_lang_shape. eapply matches_lang. eassumption. }
  rewrite (dotted_quad_dots Hq') in Htd.
  unfold dots in Htd. cbn [filter length] in Htd.
  change (46 =? 46)%N with true in Htd. cbn [length] in Htd. lia.
Qed.

End IpToken.

Lemma ip_token_found (db : UnicodeDB) (s tok : text) (p : nat) :
  dotted_quad db tok -> token_at is_blank tok s p = true ->
  In tok (findall db ip_re s).
Proof.
  intros Hq Htok.
  pose proof (@token_at_spec s is_blank tok p Htok) as (Hsub & Hbefore & Hend).
  destruct (dotted_quad_ends Hq) as (d & d' & Hd & Dd & Hd' & Dd' & Hpos).
  assert (Hne : tok <> []) by (intros ->; simpl in Hpos; lia).
  pose proof (@token_at_bound s is_blank tok p Hne Hsub) as Hp.
  (* the quad is matched where it stands *)
  destruct (@lang_matches db s ip_core tok (dotted_quad_lang Hq) eq_refl
              p None Hsub) as (c0 & Hcore).
  assert (Bp : at_boundary db s p = true).
  { unfold at_boundary.
    rewrite (@blank_before_not_word db s p Hbefore).
    unfold word_at.
    pose proof (@sub_eq_nth s tok p 0 Hsub Hpos) as H0.
    rewrite Nat.add_0_r in H0. rewrite H0, Hd, (is_digit_word db d Dd).
    reflexivity. }
  assert (Be : at_boundary db s (length tok + p) = true).
  { unfold at_boundary.
    assert (Hwa : word_at db s (length tok + p) = false).
    { unfold word_at, delim_at in *.
      destruct (nth_error s (length tok + p)) as [ch|]; [|reflexivity].
      apply blank_not_word. assumption. }
    rewrite Hwa.
    destruct (length tok) as [|n] eqn:En; [lia|].
    cbn [Nat.add word_before]. unfold word_at.
    pose proof (@sub_eq_nth s tok p n) as Hn.
    rewrite En in Hn. specialize (Hn Hsub ltac:(lia)).
    replace (S n - 1) with n in Hd' by lia.
    replace (n + p) with (p + n) by lia.
    rewrite Hn, Hd', (is_digit_word db d' Dd'). reflexivity. }
  pose proof (ip_match_build Bp Be Hcore) as Hm.
  destruct (match_at_some Hm) as (e' & c' & Hat & Hm').
  destruct (ip_end_unique Hq Htok Hm') as [-> ->].
  apply findall_complete in Hat.
  - change (item ip_re s p (length tok + p) None)
      with (sub s p (length tok + p)) in Hat.
    rewrite Hsub in Hat. exact Hat.
  - lia.
  - eapply delim_clear; [apply ip_chars | assumption].
Qed.

(** X9: a dotted quad of groups of one to three digits that stands in the
    text between blanks (space, tab, newline, carriage return) or ends of
    the text is reported in ips, whatever the values of its groups. *)
Theorem dotted_quads_are_found (db : UnicodeDB) (s tok : text) :
  dotted_quad db tok -> has_token is_blank tok s = true ->
  In tok (ips (extract_indicators db (Some s))).
Proof.
  intros Hq Hs. unfold has_token in Hs. apply existsb_exists in Hs.
  destruct Hs as (p & _ & Hp).
  unfold extract_indicators, extract_indicators_with. cbn [ips or_empty].
  rewrite py_sorted_In, dedup_In. eapply ip_token_found; eassumption.
Qed.

(** The address 999.999.999.999 inside a sample line. *)
Lemma dotted_quads_are_found_witness :
  In (str "999.999.999.999")
    (ips (extract_indicators ascii_db
            (Some (str "deny 999.999.999.999 now")))).
Proof.
  apply dotted_quads_are_found.
  - exists (str "999"), (str "999"), (str "999"), (str "999").
    vm_compute. repeat split; lia.
  - vm_compute. reflexivity.
Defined.
